(** * scan.py: localhost port scanner

    A shallow embedding of [scripts/scan.py] and the properties of its
    pipeline: argument parsing, per-line normalisation of the [lsof] and
    [ss] listings, range filter / de-duplication / sort, and rendering.

    Conventions of the embedding.
    - A Python [str] is a [string]; a character is a code point below 256,
      so the character classes below are the restrictions of Python's
      Unicode classes to U+0000..U+00FF.
    - A Python [int] is a [Z].
    - An exception that the script does not catch is a value of [exn]
      carried by [result] (pure code) or [prog] (code that prints).
    - The text captured from a subprocess is an input of the model;
      [None] stands for the two exceptions the script catches around
      [subprocess.run] ([TimeoutExpired], [FileNotFoundError]).  The
      model covers the runs in which each call of [subprocess.run]
      returns or raises one of these two; any other exception of that
      call ([PermissionError], a decoding error, ...) is not caught by
      the script and lies outside the model. *)

From Stdlib Require Import ZArith Ascii String List Lia Bool.
From Stdlib Require Import Sorting.Sorted Sorting.Permutation.
From stdpp Require Import base gmap sets list strings pretty.

Open Scope Z_scope.

(** ** Exceptions and the two effect layers *)

Inductive exn : Type :=
| SystemExit (code : Z)
| ValueError.

Inductive result (A : Type) : Type :=
| Ok (a : A)
| Raise (e : exn).
Arguments Ok {A} a.
Arguments Raise {A} e.

Definition result_bind {A B} (f : A → result B) (m : result A) : result B :=
  match m with
  | Ok a => f a
  | Raise e => Raise e
  end.

#[global] Instance result_ret : MRet result := @Ok.
#[global] Instance result_mbind : MBind result := @result_bind.

(** What a program wrote, in order, and how it ended. *)
Inductive event : Type :=
| Stdout (s : string)
| Stderr (s : string).

Definition prog (A : Type) : Type := (list event * result A)%type.

Definition prog_bind {A B} (f : A → prog B) (m : prog A) : prog B :=
  match m with
  | (tr, Ok a) => let '(tr', r) := f a in (tr ++ tr', r)
  | (tr, Raise e) => (tr, Raise e)
  end.

#[global] Instance prog_ret : MRet prog := λ A a, ([], Ok a).
#[global] Instance prog_mbind : MBind prog := @prog_bind.

Definition print (s : string) : prog unit := ([Stdout s], Ok tt).
Definition eprint (s : string) : prog unit := ([Stderr s], Ok tt).
Definition sys_exit {A} (code : Z) : prog A := ([], Raise (SystemExit code)).
Definition lift {A} (r : result A) : prog A := ([], r).

(** ** Text: the [str] methods and regular expressions the script uses *)

Module Text.

Definition code (c : ascii) : N := N_of_ascii c.

Definition dquote : ascii := ascii_of_N 34.
Definition newline : ascii := ascii_of_N 10.
Definition nl : string := String newline EmptyString.

(** [\d] of [re] and the decimal digits of [int()]. *)
Definition is_digit (c : ascii) : bool :=
  ((48 <=? code c) && (code c <=? 57))%N.

Definition digit_val (c : ascii) : Z := Z.of_N (code c) - 48.

(** [str.isspace]: what [split()] and [strip()] skip. *)
Definition is_space (c : ascii) : bool :=
  let n := code c in
  (((9 <=? n) && (n <=? 13)) || ((28 <=? n) && (n <=? 32))
   || (n =? 133) || (n =? 160))%N.

(** The line boundaries of [str.splitlines]. *)
Definition is_linebreak (c : ascii) : bool :=
  let n := code c in
  (((10 <=? n) && (n <=? 13)) || ((28 <=? n) && (n <=? 30)) || (n =? 133))%N.

Definition is_empty (s : string) : bool :=
  match s with
  | EmptyString => true
  | String _ _ => false
  end.

Fixpoint lstrip (s : string) : string :=
  match s with
  | EmptyString => EmptyString
  | String c s' => if is_space c then lstrip s' else s
  end.

Fixpoint rstrip (s : string) : string :=
  match s with
  | EmptyString => EmptyString
  | String c s' =>
      let r := rstrip s' in
      if is_empty r && is_space c then EmptyString else String c r
  end.

(** [s.strip()] *)
Definition strip (s : string) : string := rstrip (lstrip s).

Definition push_word (w : string) (ws : list string) : list string :=
  if is_empty w then ws else w :: ws.

(** The word being read at the front of [s], and the words after it. *)
Fixpoint split_go (s : string) : string * list string :=
  match s with
  | EmptyString => (EmptyString, [])
  | String c s' =>
      let '(w, ws) := split_go s' in
      if is_space c then (EmptyString, push_word w ws) else (String c w, ws)
  end.

(** [s.split()]: the maximal runs of non-space characters. *)
Definition split (s : string) : list string :=
  let '(w, ws) := split_go s in push_word w ws.

(** [s.split(sep)] for a one-character separator: never empty. *)
Fixpoint split_on (sep : ascii) (s : string) : list string :=
  match s with
  | EmptyString => [EmptyString]
  | String c s' =>
      let r := split_on sep s' in
      if Ascii.eqb c sep then EmptyString :: r
      else match r with
           | w :: ws => String c w :: ws
           | [] => [String c EmptyString]
           end
  end.

(** The line being read at the front of [s] (absent right after a
    boundary or at the start) and the lines after it; CR LF is one
    boundary. *)
Fixpoint splitlines_go (s : string) : option string * list string :=
  match s with
  | EmptyString => (None, [])
  | String c s' =>
      let '(cur, ls) := splitlines_go s' in
      if is_linebreak c then
        if (code c =? 13)%N && match s' with
                               | String c' _ => (code c' =? 10)%N
                               | EmptyString => false
                               end
        then (Some EmptyString, ls)   (* the LF after it ends the same line *)
        else (Some EmptyString, match cur with
                                | Some l => l :: ls
                                | None => ls
                                end)
      else (Some (String c (default EmptyString cur)), ls)
  end.

(** [s.splitlines()] *)
Definition splitlines (s : string) : list string :=
  let '(cur, ls) := splitlines_go s in
  match cur with
  | Some l => l :: ls
  | None => ls
  end.

(** The longest prefix of [s] whose characters satisfy [p], and the rest. *)
Fixpoint span (p : ascii → bool) (s : string) : string * string :=
  match s with
  | EmptyString => (EmptyString, EmptyString)
  | String c s' =>
      if p c then let '(a, b) := span p s' in (String c a, b)
      else (EmptyString, s)
  end.

Fixpoint strip_prefix (pre s : string) : option string :=
  match pre, s with
  | EmptyString, _ => Some s
  | String a pre', String b s' =>
      if Ascii.eqb a b then strip_prefix pre' s' else None
  | String _ _, EmptyString => None
  end.

(** [re.search(r":(\d+)$", s)]: group 1 of the leftmost match.  [$]
    matches at the end of [s] and before a final newline. *)
Definition digits_eol (s : string) : option string :=
  let '(ds, rest) := span is_digit s in
  if negb (is_empty ds) && (is_empty rest || String.eqb rest nl)
  then Some ds else None.

Fixpoint search_port (s : string) : option string :=
  match s with
  | EmptyString => None
  | String c s' =>
      if Ascii.eqb c ":" then
        match digits_eol s' with
        | Some ds => Some ds
        | None => search_port s'
        end
      else search_port s'
  end.

(** [re.search(PROC, s)] for the pattern PROC of [scan_linux], which
    reads: an opening parenthesis, a double quote, one or more characters
    other than a double quote (group 1), a double quote, the text
    [,pid=], one or more digits (group 2).  The result is groups 1 and 2
    of the leftmost match; [proc_at] is the attempt at the front of [s]. *)
Definition proc_at (s : string) : option (string * string) :=
  match s with
  | String c0 (String c1 r) =>
      if Ascii.eqb c0 "(" && Ascii.eqb c1 dquote then
        let '(name, rest) := span (λ c, negb (Ascii.eqb c dquote)) r in
        if is_empty name then None else
        match strip_prefix (String dquote ",pid=") rest with
        | Some r2 =>
            let '(ds, _) := span is_digit r2 in
            if is_empty ds then None else Some (name, ds)
        | None => None
        end
      else None
  | _ => None
  end.

Fixpoint search_proc (s : string) : option (string * string) :=
  match proc_at s with
  | Some m => Some m
  | None =>
      match s with
      | EmptyString => None
      | String _ s' => search_proc s'
      end
  end.

(** *** [int(s)] in base 10 *)

(** Digits with single underscores between them, as [int()] reads them;
    [prev] is the character before [s]. *)
Fixpoint scan_digits (prev : ascii) (s : string) : option (list Z) :=
  match s with
  | EmptyString => if Ascii.eqb prev "_" then None else Some []
  | String c s' =>
      if Ascii.eqb c "_" then
        if Ascii.eqb prev "_" then None else scan_digits c s'
      else if is_digit c then cons (digit_val c) <$> scan_digits c s'
      else None
  end.

Definition decimal (ds : list Z) : Z := fold_left (λ acc d, 10 * acc + d) ds 0.

(** [sys.int_info.default_max_str_digits]: longer digit strings are
    refused by [int()] with a [ValueError]. *)
Definition int_max_str_digits : Z := 4300.

Definition int_body (s : string) : option Z :=
  match s with
  | EmptyString => None
  | String c _ =>
      if Ascii.eqb c "_" then None else
      match scan_digits c s with
      | Some ds =>
          if Z.of_nat (length ds) <=? int_max_str_digits
          then Some (decimal ds) else None
      | None => None
      end
  end.

(** The white space [int()] skips around a number.  CPython first turns
    every character above U+007F that is a Unicode space (U+0085 and
    U+00A0 here) into a blank and then skips the C white space U+0009
    to U+000D and U+0020.  The separators U+001C to U+001F, which
    [str.strip] removes, are not skipped: [int] refuses a string that
    starts or ends with one. *)
Definition is_int_space (c : ascii) : bool :=
  let n := code c in
  (((9 <=? n) && (n <=? 13)) || (n =? 32) || (n =? 133) || (n =? 160))%N.

Fixpoint int_lstrip (s : string) : string :=
  match s with
  | EmptyString => EmptyString
  | String c s' => if is_int_space c then int_lstrip s' else s
  end.

Fixpoint int_rstrip (s : string) : string :=
  match s with
  | EmptyString => EmptyString
  | String c s' =>
      let r := int_rstrip s' in
      if is_empty r && is_int_space c then EmptyString else String c r
  end.

Definition int_strip (s : string) : string := int_rstrip (int_lstrip s).

(** [int(s)]: surrounding white space, an optional sign, the digits. *)
Definition py_int (s : string) : result Z :=
  let t := int_strip s in
  let '(sign, body) :=
    match t with
    | String c r =>
        if Ascii.eqb c "-" then (-1, r)
        else if Ascii.eqb c "+" then (1, r)
        else (1, t)
    | EmptyString => (1, t)
    end in
  match int_body body with
  | Some n => Ok (sign * n)
  | None => Raise ValueError
  end.

End Text.

Import Text.

(** ** Entries and options *)

(** The dict built at each [entries.append]; its keys in insertion order. *)
Record entry : Type := Entry {
  proto : string;
  port : Z;
  pid : string;
  process : string
}.

#[global] Instance entry_eq_dec : EqDecision entry.
Proof. solve_decision. Defined.

(** The dict [opts] of [parse_args]. *)
Record options : Type := Options {
  format : string;
  range_start : option Z;
  range_end : option Z
}.

Definition default_opts : options :=
  {| format := "text"; range_start := None; range_end := None |}.

Definition set_range (o : options) (lo hi : Z) : options :=
  {| format := format o; range_start := Some lo; range_end := Some hi |}.

Definition set_format (o : options) (f : string) : options :=
  {| format := f; range_start := range_start o; range_end := range_end o |}.

(** ** Normalisation of the enumerator listings *)

(** The body of the two line loops of [scan_macos], which differ in the
    protocol tag only: the entry appended for [line], if any. *)
Definition macos_line (tag line : string) : result (option entry) :=
  let cols := split line in
  if (length cols <? 9)%nat then Ok None else
  let process := nth 0 cols EmptyString in
  let pid := nth 1 cols EmptyString in
  let name_field := nth 8 cols EmptyString in
  match search_port name_field with
  | Some g =>
      port ← py_int g;
      Ok (Some {| proto := tag; port := port; pid := pid; process := process |})
  | None => Ok None
  end.

(** The inner [for col in cols] of [scan_linux]: the groups of the first
    column that carries a process annotation, as [(proc_str, pid_str)]. *)
Fixpoint find_proc (cols : list string) : string * string :=
  match cols with
  | [] => (EmptyString, EmptyString)
  | col :: rest =>
      match search_proc col with
      | Some pm => pm
      | None => find_proc rest
      end
  end.

(** [x or "-"] on strings *)
Definition or_dash (x : string) : string := if is_empty x then "-" else x.

(** The body of the line loop of [scan_linux]. *)
Definition linux_line (tag line : string) : result (option entry) :=
  let cols := split line in
  if (length cols <? 5)%nat then Ok None else
  let local := nth 3 cols EmptyString in
  match search_port local with
  | None => Ok None
  | Some g =>
      port ← py_int g;
      let '(proc_str, pid_str) := find_proc cols in
      Ok (Some {| proto := tag; port := port;
                  pid := or_dash pid_str; process := or_dash proc_str |})
  end.

(** A line loop: [entries] grows by what each line contributes; an
    exception leaves the loop. *)
Fixpoint scan_lines (body : string → result (option entry))
    (lines : list string) (entries : list entry) : result (list entry) :=
  match lines with
  | [] => Ok entries
  | line :: rest =>
      r ← body line;
      scan_lines body rest (entries ++ option_list r)
  end.

(** [result.stdout.strip().splitlines()[1:]] *)
Definition data_lines (stdout : string) : list string :=
  drop 1 (splitlines (strip stdout)).

(** One [try] block: [out] is the captured standard output, or [None]
    when [subprocess.run] raised one of the two caught exceptions (no
    other outcome of the call is modelled). *)
Definition scan_output (body : string → result (option entry))
    (out : option string) (entries : list entry) : result (list entry) :=
  match out with
  | Some stdout => scan_lines body (data_lines stdout) entries
  | None => Ok entries
  end.

Definition scan_macos (lsof_tcp lsof_udp : option string) : result (list entry) :=
  entries ← scan_output (macos_line "TCP") lsof_tcp [];
  scan_output (macos_line "UDP") lsof_udp entries.

(** [ss] maps the flag passed to the utility to what it printed. *)
Definition scan_linux (ss : string → option string) : result (list entry) :=
  foldl (λ acc '(tag, flag),
           entries ← acc; scan_output (linux_line tag) (ss flag) entries)
        (Ok []) [("TCP", "-tlnp"); ("UDP", "-ulnp")].

(** What the script reads from its host. *)
Record host : Type := Host {
  system : string;
  lsof_tcp : option string;
  lsof_udp : option string;
  ss : string → option string
}.

Definition scan_ports (h : host) : prog (list entry) :=
  if String.eqb (system h) "Darwin" then lift (scan_macos (lsof_tcp h) (lsof_udp h))
  else if String.eqb (system h) "Linux" then lift (scan_linux (ss h))
  else _ ← eprint ("Unsupported platform: " +:+ system h); sys_exit 1.

(** ** Filter, de-duplicate, sort *)

(** Lines 151-153: the comprehension runs only when both bounds are set. *)
Definition range_filter (entries : list entry) (opts : options) : list entry :=
  match range_start opts, range_end opts with
  | Some lo, Some hi => filter (λ e, lo ≤ port e ≤ hi) entries
  | _, _ => entries
  end.

Definition key (e : entry) : string * Z * string := (proto e, port e, pid e).

(** Lines 155-161: [seen] is the set of keys met so far. *)
Fixpoint dedupe (seen : gset (string * Z * string)) (entries : list entry)
    : list entry :=
  match entries with
  | [] => []
  | e :: rest =>
      if decide (key e ∈ seen) then dedupe seen rest
      else e :: dedupe ({[ key e ]} ∪ seen) rest
  end.

Definition sort_key (e : entry) : Z * string := (port e, proto e).

(** [<] on the key tuples: the first components that differ decide. *)
Definition tuple_lt (a b : Z * string) : bool :=
  if a.1 =? b.1 then String.ltb a.2 b.2 else a.1 <? b.1.

(** [list.sort] is stable, and a stable sort has one possible result;
    it is computed here by insertion from the right. *)
Fixpoint insert_entry (e : entry) (l : list entry) : list entry :=
  match l with
  | [] => [e]
  | x :: l' =>
      if tuple_lt (sort_key x) (sort_key e) then x :: insert_entry e l'
      else e :: l
  end.

Definition sort_entries (l : list entry) : list entry :=
  foldr insert_entry [] l.

Definition filter_ports (entries : list entry) (opts : options) : list entry :=
  sort_entries (dedupe ∅ (range_filter entries opts)).

(** ** Rendering *)

Definition spaces (n : nat) : string := string_of_list_ascii (replicate n " "%char).

(** [f"{s:<w}"] and [f"{s:>w}"]: pad to the width, never truncate. *)
Definition ljust (w : nat) (s : string) : string := s +:+ spaces (w - String.length s).
Definition rjust (w : nat) (s : string) : string := spaces (w - String.length s) +:+ s.

Definition text_row (e : entry) : string :=
  ljust 6 (proto e) +:+ " " +:+ rjust 6 (pretty (port e)) +:+ "  "
  +:+ rjust 8 (pid e) +:+ "  " +:+ process e.

Definition format_text (entries : list entry) : string :=
  let header := ljust 6 "Proto" +:+ " " +:+ rjust 6 "Port" +:+ "  "
                +:+ rjust 8 "PID" +:+ "  " +:+ "Process" in
  let sep := string_of_list_ascii (replicate 50 "-"%char) in
  let lines := [header; sep] ++ map text_row entries in
  let lines := if decide (entries = []) then lines ++ ["(no listening ports found)"]
               else lines in
  String.concat nl lines.

(** The values [json.dumps] meets in this script. *)
#[local] Unset Elimination Schemes.
Inductive json : Type :=
| JStr (s : string)
| JInt (z : Z)
| JList (l : list json)
| JDict (items : list (string * json)).
#[local] Set Elimination Schemes.

Definition quote : string := String dquote EmptyString.
Definition backslash : ascii := ascii_of_N 92.

Definition hex_digit (n : N) : ascii :=
  if (n <? 10)%N then ascii_of_N (48 + n) else ascii_of_N (87 + n).

(** One character of a JSON string under [ensure_ascii=True]. *)
Definition escape_char (c : ascii) : string :=
  let n := code c in
  if Ascii.eqb c dquote then String backslash quote
  else if Ascii.eqb c backslash then String backslash (String backslash EmptyString)
  else if (n =? 10)%N then String backslash "n"
  else if (n =? 13)%N then String backslash "r"
  else if (n =? 9)%N then String backslash "t"
  else if (n =? 8)%N then String backslash "b"
  else if (n =? 12)%N then String backslash "f"
  else if ((32 <=? n) && (n <=? 126))%N then String c EmptyString
  else String backslash "u00"
       +:+ String (hex_digit (n / 16)) (String (hex_digit (n mod 16)) EmptyString).

Fixpoint escape (s : string) : string :=
  match s with
  | EmptyString => EmptyString
  | String c s' => escape_char c +:+ escape s'
  end.

Definition encode_str (s : string) : string := quote +:+ escape s +:+ quote.

(** A line break followed by the indentation of nesting depth [level]. *)
Definition newline_indent (indent level : nat) : string :=
  nl +:+ spaces (indent * level).

(** [json.dumps(v, indent=indent)] at nesting depth [level]: the item
    separator is a comma and the key separator a colon and a space. *)
Fixpoint encode (indent level : nat) (v : json) : string :=
  match v with
  | JStr s => encode_str s
  | JInt z => pretty z
  | JList [] => "[]"
  | JList l =>
      "[" +:+ newline_indent indent (S level)
      +:+ String.concat ("," +:+ newline_indent indent (S level))
            (map (encode indent (S level)) l)
      +:+ newline_indent indent level +:+ "]"
  | JDict [] => "{}"
  | JDict items =>
      "{" +:+ newline_indent indent (S level)
      +:+ String.concat ("," +:+ newline_indent indent (S level))
            (map (λ kv, let '(k, x) := kv in
                        encode_str k +:+ ": " +:+ encode indent (S level) x) items)
      +:+ newline_indent indent level +:+ "}"
  end.

Definition entry_json (e : entry) : json :=
  JDict [("proto", JStr (proto e)); ("port", JInt (port e));
         ("pid", JStr (pid e)); ("process", JStr (process e))].

Definition format_json (entries : list entry) : string :=
  encode 2 0 (JDict [("ports", JList (map entry_json entries))]).

(** ** Command line *)

Definition usage_text : string :=
  String.concat nl
    ["Usage: run.sh [OPTIONS]";
     EmptyString;
     "Options:";
     "  --range START-END   Scan a specific port range (e.g. 3000-9000)";
     "  --common            Scan only well-known ports 1-1024";
     "  --format text|json  Output format (default: text)";
     "  --help              Show this help message"].

Definition usage : prog unit := print usage_text.

(** The [while] loop of [parse_args] from index [i]: [argv] is [argv[i:]]. *)
Fixpoint parse_loop (argv : list string) (opts : options) : prog options :=
  match argv with
  | [] => mret opts
  | arg :: rest =>
      if String.eqb arg "--help" then
        _ ← usage; sys_exit 0
      else if String.eqb arg "--common" then
        parse_loop rest (set_range opts 1 1024)
      else if String.eqb arg "--range" then
        match rest with
        | [] => _ ← eprint "Error: --range requires START-END argument"; sys_exit 1
        | v :: rest' =>
            let parts := split_on "-" v in
            if negb (length parts =? 2)%nat then
              _ ← eprint "Error: --range format must be START-END"; sys_exit 1
            else
              lo ← lift (py_int (nth 0 parts EmptyString));
              hi ← lift (py_int (nth 1 parts EmptyString));
              parse_loop rest' (set_range opts lo hi)
        end
      else if String.eqb arg "--format" then
        match rest with
        | [] => _ ← eprint "Error: --format requires text|json argument"; sys_exit 1
        | v :: rest' =>
            if negb (String.eqb v "text" || String.eqb v "json") then
              _ ← eprint "Error: --format must be text or json"; sys_exit 1
            else parse_loop rest' (set_format opts v)
        end
      else
        _ ← eprint ("Unknown option: " +:+ arg); sys_exit 1
  end.

Definition parse_args (argv : list string) : prog options :=
  parse_loop argv default_opts.

(** [args] is [sys.argv[1:]]. *)
Definition main (args : list string) (h : host) : prog unit :=
  opts ← parse_args args;
  entries ← scan_ports h;
  let entries := filter_ports entries opts in
  if String.eqb (format opts) "json" then print (format_json entries)
  else print (format_text entries).

(** ** The process as seen from outside *)

(** An exception that reaches the top level ends the interpreter:
    [SystemExit] with its code and nothing more, any other exception with
    status 1 after its traceback has been written to the error stream. *)
Record outcome : Type := Outcome {
  exit_status : Z;
  stdout : list string;
  stderr : list string;
  traceback : option exn
}.

Definition stdout_of (tr : list event) : list string :=
  omap (λ ev, match ev with Stdout s => Some s | Stderr _ => None end) tr.

Definition stderr_of (tr : list event) : list string :=
  omap (λ ev, match ev with Stderr s => Some s | Stdout _ => None end) tr.

Definition run {A} (p : prog A) : outcome :=
  let '(tr, r) := p in
  {| exit_status := match r with
                    | Ok _ => 0
                    | Raise (SystemExit c) => c
                    | Raise ValueError => 1
                    end;
     stdout := stdout_of tr;
     stderr := stderr_of tr;
     traceback := match r with
                  | Raise ValueError => Some ValueError
                  | _ => None
                  end |}.

(** Something was written to the error stream. *)
Definition wrote_stderr (p : outcome) : Prop :=
  stderr p ≠ [] ∨ traceback p ≠ None.

(** * Vocabulary of the statements *)

(** The order of the final sort: by port, ties by protocol string. *)
Definition entry_le (a b : entry) : Prop :=
  port a < port b ∨ (port a = port b ∧ String.le (proto a) (proto b)).

(** What [--range v] stores: the two bounds, when [v] has exactly two
    parts around a dash and [int()] accepts both. *)
Definition range_value (v : string) : option (Z * Z) :=
  match split_on "-" v with
  | [a; b] =>
      match py_int a, py_int b with
      | Ok lo, Ok hi => Some (lo, hi)
      | _, _ => None
      end
  | _ => None
  end.

(** A value of [--range] is malformed when it does not have exactly two
    parts around a dash, or [int()] refuses one of the parts. *)
Definition malformed_range (v : string) : Prop :=
  length (split_on "-" v) ≠ 2%nat
  ∨ ∃ part, part ∈ split_on "-" v ∧ py_int part = Raise ValueError.

(** One turn of the loop that goes on: the flag at the front of the
    arguments is consumed, with its value if it takes one. *)
Inductive flag_step (o : options) : list string → list string → options → Prop :=
| step_common rest :
    flag_step o ("--common" :: rest) rest (set_range o 1 1024)
| step_range v lo hi rest :
    range_value v = Some (lo, hi) →
    flag_step o ("--range" :: v :: rest) rest (set_range o lo hi)
| step_format v rest :
    v = "text" ∨ v = "json" →
    flag_step o ("--format" :: v :: rest) rest (set_format o v).

(** A fatal usage error: nothing on standard output, and either a message
    on the error stream followed by [sys.exit(1)], or the [ValueError] of
    [int()], which nothing catches. *)
Definition usage_error {A} (p : prog A) : Prop :=
  ∃ tr e, p = (tr, Raise e) ∧ stdout_of tr = []
          ∧ ((e = SystemExit 1 ∧ stderr_of tr ≠ []) ∨ e = ValueError).

(** [c in s] *)
Fixpoint contains (c : ascii) (s : string) : bool :=
  match s with
  | EmptyString => false
  | String c' s' => Ascii.eqb c' c || contains c s'
  end.

Fixpoint all_digits (s : string) : bool :=
  match s with
  | EmptyString => true
  | String c s' => is_digit c && all_digits s'
  end.

Fixpoint last_char (s : string) : option ascii :=
  match s with
  | EmptyString => None
  | String c s' =>
      match last_char s' with
      | None => Some c
      | Some c' => Some c'
      end
  end.

Fixpoint no_space (s : string) : bool :=
  match s with
  | EmptyString => true
  | String c s' => negb (is_space c) && no_space s'
  end.

(** [field] ends in a colon followed by the digits [ds], and by nothing
    else: the shape of an address with a port. *)
Definition ends_in_port (field ds : string) : Prop :=
  all_digits ds = true ∧ ds ≠ EmptyString ∧ ∃ pre, field = pre +:+ ":" +:+ ds.

(** The number a string of decimal digits denotes. *)
Definition digits_value (ds : string) : Z :=
  decimal (digit_val <$> list_ascii_of_string ds).

(** A key of a JSON object, as written. *)
Definition json_key (k : string) : string := quote +:+ k +:+ quote +:+ ": ".

(** The document of the structured mode as the specification words it,
    written out character by character: one object with the single key
    [ports], whose value is the array of the entries in their order, each
    an object of the four fields; every nesting level is indented by two
    more spaces.  [json_entry] is one entry at nesting depth 2. *)
Definition json_entry (e : entry) : string :=
  "{" +:+ nl
  +:+ "      " +:+ json_key "proto" +:+ encode_str (proto e) +:+ "," +:+ nl
  +:+ "      " +:+ json_key "port" +:+ pretty (port e) +:+ "," +:+ nl
  +:+ "      " +:+ json_key "pid" +:+ encode_str (pid e) +:+ "," +:+ nl
  +:+ "      " +:+ json_key "process" +:+ encode_str (process e) +:+ nl
  +:+ "    }".

Definition json_ports (entries : list entry) : string :=
  match entries with
  | [] => "[]"
  | _ => "[" +:+ nl
         +:+ "    " +:+ String.concat ("," +:+ nl +:+ "    ") (json_entry <$> entries)
         +:+ nl +:+ "  ]"
  end.

Definition json_document (entries : list entry) : string :=
  "{" +:+ nl +:+ "  " +:+ json_key "ports" +:+ json_ports entries +:+ nl +:+ "}".

(** What a successful parse leaves in [opts]: a known output format, and
    bounds that are both absent or both present and not negative. *)
Definition opts_ok (o : options) : Prop :=
  (format o = "text" ∨ format o = "json")
  ∧ ((range_start o = None ∧ range_end o = None)
     ∨ ∃ lo hi, range_start o = Some lo ∧ range_end o = Some hi ∧ 0 ≤ lo ∧ 0 ≤ hi).

(** The four flags of [parse_args]. *)
Definition is_flag (x : string) : Prop :=
  x = "--help" ∨ x = "--common" ∨ x = "--range" ∨ x = "--format".

(** The data lines of a listing; none when the utility gave nothing. *)
Definition lines_of (out : option string) : list string :=
  match out with
  | Some stdout => data_lines stdout
  | None => []
  end.

(** What one line adds to [entries] when the loop body does not raise. *)
Definition line_entry (body : string → result (option entry)) (line : string)
    : option entry :=
  match body line with
  | Ok r => r
  | Raise _ => None
  end.

(** The process annotation of a column of [ss]: an opening parenthesis, a
    double quote, the name, a double quote, the text [,pid=] and the pid. *)
Definition annotation (name ds : string) : string :=
  "(" +:+ quote +:+ name +:+ quote +:+ ",pid=" +:+ ds.

Fixpoint all_chars (p : ascii → bool) (s : string) : bool :=
  match s with
  | EmptyString => true
  | String c s' => p c && all_chars p s'
  end.

(** A printable ASCII character (U+0020..U+007E) or a line feed. *)
Definition is_plain (c : ascii) : bool :=
  ((32 <=? code c) && (code c <=? 126) || (code c =? 10))%N.

(** The value of a lower-case hexadecimal digit. *)
Definition unhex (c : ascii) : option N :=
  let n := code c in
  if ((48 <=? n) && (n <=? 57))%N then Some (n - 48)%N
  else if ((97 <=? n) && (n <=? 102))%N then Some (n - 87)%N
  else None.

(** Reads back one character of the body of a JSON string: an escape
    sequence, or a character that stands for itself; a bare double quote
    is where the body ends. *)
Definition decode1 (s : string) : option (ascii * string) :=
  match s with
  | EmptyString => None
  | String c r =>
      if Ascii.eqb c backslash then
        match r with
        | EmptyString => None
        | String x r' =>
            if Ascii.eqb x dquote then Some (dquote, r')
            else if Ascii.eqb x backslash then Some (backslash, r')
            else if Ascii.eqb x "n" then Some (ascii_of_N 10, r')
            else if Ascii.eqb x "r" then Some (ascii_of_N 13, r')
            else if Ascii.eqb x "t" then Some (ascii_of_N 9, r')
            else if Ascii.eqb x "b" then Some (ascii_of_N 8, r')
            else if Ascii.eqb x "f" then Some (ascii_of_N 12, r')
            else if Ascii.eqb x "u" then
              match r' with
              | String z1 (String z2 (String h (String l r''))) =>
                  if Ascii.eqb z1 "0" && Ascii.eqb z2 "0" then
                    match unhex h, unhex l with
                    | Some a, Some b => Some (ascii_of_N (16 * a + b), r'')
                    | _, _ => None
                    end
                  else None
              | _ => None
              end
            else None
        end
      else if Ascii.eqb c dquote then None
      else Some (c, r)
  end.

(** ** Sample inputs *)

Definition web : entry := Entry "TCP" 8080 "1234" "node".
Definition dns_udp : entry := Entry "UDP" 53 "-" "-".
Definition dns_tcp : entry := Entry "TCP" 53 "7" "named".
Definition tls_a : entry := Entry "TCP" 443 "99" "nginx".
Definition tls_b : entry := Entry "TCP" 443 "99" "nginx-worker".

(** A Linux host on which [ss] is not installed. *)
Definition linux_host : host :=
  {| system := "Linux"; lsof_tcp := None; lsof_udp := None; ss := λ _, None |}.

(** * Properties *)

(** ** The text primitives on examples *)

Example split_columns :
  split "  LISTEN 0   128  [::]:22 [::]:*  " = ["LISTEN"; "0"; "128"; "[::]:22"; "[::]:*"].
Proof. reflexivity. Qed.

Example split_on_dash :
  split_on "-" "3000-9000" = ["3000"; "9000"]
  ∧ split_on "-" "8000" = ["8000"]
  ∧ split_on "-" "-5-10" = [EmptyString; "5"; "10"]
  ∧ split_on "-" EmptyString = [EmptyString].
Proof. repeat split; reflexivity. Qed.

Example splitlines_listing :
  splitlines ("a" +:+ nl +:+ nl +:+ "b" +:+ nl) = ["a"; EmptyString; "b"]
  ∧ splitlines (String (ascii_of_N 13) nl +:+ "c") = [EmptyString; "c"]
  ∧ splitlines EmptyString = [].
Proof. repeat split; reflexivity. Qed.

Example data_lines_drop_header :
  data_lines (nl +:+ "Netid State" +:+ nl +:+ "first" +:+ nl +:+ "second" +:+ nl)
  = ["first"; "second"]
  ∧ data_lines EmptyString = [].
Proof. split; reflexivity. Qed.

Example search_port_fields :
  search_port "*:8080" = Some "8080"
  ∧ search_port "[::1]:631" = Some "631"
  ∧ search_port "*:*" = None
  ∧ search_port "127.0.0.1:" = None
  ∧ search_port "10.0.0.1:22->10.0.0.2:4711x" = None.
Proof. repeat split; reflexivity. Qed.

Example search_proc_column :
  search_proc ("users:((" +:+ quote +:+ "sshd" +:+ quote +:+ ",pid=812,fd=3))")
  = Some ("sshd", "812")
  ∧ search_proc ("users:((" +:+ quote +:+ quote +:+ ",pid=812,fd=3))") = None
  ∧ search_proc "0.0.0.0:*" = None.
Proof. repeat split; reflexivity. Qed.

Example py_int_literals :
  py_int "8080" = Ok 8080 ∧ py_int " 007 " = Ok 7 ∧ py_int "+12" = Ok 12
  ∧ py_int "1_000" = Ok 1000 ∧ py_int "-3" = Ok (-3)
  ∧ py_int EmptyString = Raise ValueError ∧ py_int "http" = Raise ValueError
  ∧ py_int "1.5" = Raise ValueError ∧ py_int "1__0" = Raise ValueError
  ∧ py_int "0x10" = Raise ValueError.
Proof. repeat split; reflexivity. Qed.

(** [int()] skips less than [str.strip()]: the unit separator U+001F is
    stripped by [strip] and refused by [int], the no-break space U+00A0
    is skipped by both. *)
Example py_int_separators :
  let us := String (ascii_of_N 31) EmptyString in
  let nbsp := String (ascii_of_N 160) EmptyString in
  strip (us +:+ "3000") = "3000"
  ∧ py_int (us +:+ "3000") = Raise ValueError
  ∧ py_int ("3000" +:+ us) = Raise ValueError
  ∧ py_int (nbsp +:+ "3000" +:+ nbsp) = Ok 3000.
Proof. repeat split; reflexivity. Qed.

(** ** The filter / de-duplicate / sort stage *)

Section FilterPorts.

Implicit Types (e x : entry) (es l : list entry) (opts : options).
Implicit Types (seen : gset (string * Z * string)).

Lemma dedupe_elem seen es e :
  e ∈ dedupe seen es → e ∈ es ∧ key e ∉ seen.
Proof.
  revert seen. induction es as [|x es IH]; intros seen; simpl.
  - intros []%elem_of_nil.
  - case_decide as Hx.
    + intros Hin. apply IH in Hin as [? ?].
      split; [by apply elem_of_cons; right | done].
    + intros Hin. apply elem_of_cons in Hin as [-> | Hin].
      * split; [by apply elem_of_cons; left | done].
      * apply IH in Hin as [? Hk]. split; [by apply elem_of_cons; right |].
        by apply not_elem_of_union in Hk as [_ ?].
Qed.

Lemma dedupe_keys_NoDup seen es : NoDup (key <$> dedupe seen es).
Proof.
  revert seen. induction es as [|x es IH]; intros seen; simpl.
  - constructor.
  - case_decide as Hx; [apply IH|].
    rewrite fmap_cons. apply NoDup_cons. split; [|apply IH].
    intros Hin. apply list_elem_of_fmap in Hin as (y & Hk & Hy).
    apply dedupe_elem in Hy as [_ Hy]. rewrite <- Hk in Hy.
    apply Hy, elem_of_union. left. by apply elem_of_singleton.
Qed.

Lemma dedupe_complete seen es e :
  e ∈ es → key e ∉ seen → ∃ e', e' ∈ dedupe seen es ∧ key e' = key e.
Proof.
  revert seen. induction es as [|x es IH]; intros seen Hin Hk.
  - by apply elem_of_nil in Hin.
  - simpl. case_decide as Hx.
    + apply elem_of_cons in Hin as [-> | Hin]; [done|]. by apply IH.
    + destruct (decide (key e = key x)) as [Heq | Hne].
      * exists x. split; [by apply elem_of_cons; left | done].
      * apply elem_of_cons in Hin as [-> | Hin]; [done|].
        destruct (IH ({[ key x ]} ∪ seen) Hin) as (e' & ? & ?).
        { apply not_elem_of_union. by rewrite not_elem_of_singleton. }
        exists e'. split; [by apply elem_of_cons; right | done].
Qed.

Lemma dedupe_sublist seen es : dedupe seen es `sublist_of` es.
Proof.
  revert seen. induction es as [|x es IH]; intros seen; simpl.
  - constructor.
  - case_decide; [apply sublist_cons | apply sublist_skip]; apply IH.
Qed.

Lemma range_filter_sublist es opts : range_filter es opts `sublist_of` es.
Proof.
  unfold range_filter.
  destruct (range_start opts), (range_end opts); try done.
  apply sublist_filter.
Qed.

(** An entry passes the range step when no range is set or its port lies
    within the bounds. *)
Lemma range_filter_pass es opts e :
  e ∈ es →
  (∀ lo hi, range_start opts = Some lo → range_end opts = Some hi →
            lo ≤ port e ≤ hi) →
  e ∈ range_filter es opts.
Proof.
  intros He Hpass. unfold range_filter.
  destruct (range_start opts) as [lo|], (range_end opts) as [hi|]; try done.
  apply list_elem_of_filter. split; [by apply Hpass | done].
Qed.

Lemma range_filter_all es opts :
  (∀ e, e ∈ es → ∀ lo hi, range_start opts = Some lo →
                          range_end opts = Some hi → lo ≤ port e ≤ hi) →
  range_filter es opts = es.
Proof.
  intros Hpass. unfold range_filter.
  destruct (range_start opts) as [lo|], (range_end opts) as [hi|]; try done.
  induction es as [|x es IH]; [done|].
  rewrite filter_cons_True by (apply (Hpass x); [apply list_elem_of_here | done..]).
  f_equal. apply IH. intros e He. by apply Hpass, list_elem_of_further.
Qed.

(** *** The order *)

Lemma string_compare_refl (s : string) : (s ?= s)%string = Eq.
Proof.
  induction s as [|c s IH]; simpl; [done|].
  unfold Ascii.compare. by rewrite N.compare_refl.
Qed.

Lemma tuple_lt_le x e :
  tuple_lt (sort_key x) (sort_key e) = true → entry_le x e.
Proof.
  unfold tuple_lt, entry_le, sort_key, String.le; simpl.
  destruct (port x =? port e) eqn:Hp.
  - apply Z.eqb_eq in Hp. intros Hlt. right. split; [done|].
    unfold String.ltb in Hlt. unfold String.leb.
    by destruct (proto x ?= proto e)%string.
  - intros ?%Z.ltb_lt. by left.
Qed.

Lemma tuple_nlt_le x e :
  tuple_lt (sort_key x) (sort_key e) = false → entry_le e x.
Proof.
  unfold tuple_lt, entry_le, sort_key, String.le; simpl.
  destruct (port x =? port e) eqn:Hp.
  - apply Z.eqb_eq in Hp. intros Hlt. right. split; [done|].
    unfold String.ltb in Hlt. unfold String.leb.
    rewrite String.compare_antisym.
    by destruct (proto x ?= proto e)%string.
  - apply Z.eqb_neq in Hp. intros ?%Z.ltb_ge. left. lia.
Qed.

#[local] Instance entry_le_trans : Transitive entry_le.
Proof.
  intros a b c [Hab | [Hab Hs1]] [Hbc | [Hbc Hs2]]; unfold entry_le.
  - left; lia.
  - left; lia.
  - left; lia.
  - right. split; [lia|]. by etrans.
Qed.

Lemma insert_entry_perm e l : insert_entry e l ≡ₚ e :: l.
Proof.
  induction l as [|x l IH]; simpl; [done|].
  destruct (tuple_lt _ _); [|done].
  rewrite IH. apply Permutation_swap.
Qed.

Lemma sort_entries_perm l : sort_entries l ≡ₚ l.
Proof.
  induction l as [|x l IH]; simpl; [done|].
  by rewrite insert_entry_perm, IH.
Qed.

Lemma insert_entry_sorted e l :
  StronglySorted entry_le l → StronglySorted entry_le (insert_entry e l).
Proof.
  induction 1 as [|x l Hs IH Hall]; simpl.
  - repeat constructor.
  - destruct (tuple_lt _ _) eqn:Hlt.
    + constructor; [done|].
      rewrite insert_entry_perm. constructor; [by apply tuple_lt_le | done].
    + apply tuple_nlt_le in Hlt.
      constructor; [by constructor|].
      constructor; [done|].
      eapply Forall_impl; [exact Hall|]. intros y Hy. by etrans.
Qed.

Lemma sort_entries_sorted l : StronglySorted entry_le (sort_entries l).
Proof.
  induction l as [|x l IH]; simpl; [constructor | by apply insert_entry_sorted].
Qed.

(** Stability: entries with equal sort keys keep their relative order. *)
Lemma insert_entry_stable k e l :
  filter (λ x, sort_key x = k) (insert_entry e l)
  = filter (λ x, sort_key x = k) (e :: l).
Proof.
  induction l as [|x l IH]; simpl; [done|].
  destruct (tuple_lt _ _) eqn:Hlt; [|done].
  rewrite !filter_cons in *.
  destruct (decide (sort_key x = k)) as [Hx|Hx],
           (decide (sort_key e = k)) as [He|He]; try by rewrite IH.
  exfalso. rewrite Hx, He in Hlt. unfold tuple_lt in Hlt.
  rewrite Z.eqb_refl in Hlt. unfold String.ltb in Hlt.
  by rewrite string_compare_refl in Hlt.
Qed.

Lemma sort_entries_stable k l :
  filter (λ x, sort_key x = k) (sort_entries l) = filter (λ x, sort_key x = k) l.
Proof.
  induction l as [|x l IH]; simpl; [done|].
  rewrite insert_entry_stable, !filter_cons. by rewrite IH.
Qed.

Lemma entry_le_antisym a b :
  entry_le a b → entry_le b a → sort_key a = sort_key b.
Proof.
  unfold entry_le, sort_key. intros [? | [Hp Hs1]] [? | [? Hs2]]; try lia.
  f_equal; [done|]. by apply (anti_symm String.le).
Qed.

(** Two sorted lists in which the entries of each sort key appear in the
    same order are equal. *)
Lemma sorted_stable_eq l1 :
  ∀ l2, StronglySorted entry_le l1 → StronglySorted entry_le l2 →
        (∀ k, filter (λ x, sort_key x = k) l1 = filter (λ x, sort_key x = k) l2) →
        l1 = l2.
Proof.
  induction l1 as [|x l1 IH]; intros [|y l2] Hs1 Hs2 Hf; [done| | |].
  - specialize (Hf (sort_key y)). by rewrite filter_cons_True in Hf.
  - specialize (Hf (sort_key x)). by rewrite filter_cons_True in Hf.
  - apply StronglySorted_inv in Hs1 as [Hs1 Hx].
    apply StronglySorted_inv in Hs2 as [Hs2 Hy].
    rewrite Forall_forall in Hx, Hy.
    assert (Hk : sort_key x = sort_key y).
    { destruct (decide (sort_key x = sort_key y)) as [|Hne]; [done|].
      apply entry_le_antisym.
      - apply Hx. pose proof (Hf (sort_key y)) as Hfy.
        rewrite filter_cons_False, (filter_cons_True _ y) in Hfy by done.
        assert (y ∈ filter (λ z, sort_key z = sort_key y) l1) as Hin
          by (rewrite Hfy; apply list_elem_of_here).
        by apply list_elem_of_filter in Hin as [_ Hin].
      - apply Hy. pose proof (Hf (sort_key x)) as Hfx.
        rewrite (filter_cons_True _ x), filter_cons_False in Hfx by done.
        assert (x ∈ filter (λ z, sort_key z = sort_key x) l2) as Hin
          by (rewrite <- Hfx; apply list_elem_of_here).
        by apply list_elem_of_filter in Hin as [_ Hin]. }
    assert (x = y) as <-.
    { pose proof (Hf (sort_key x)) as Hfx.
      rewrite !filter_cons_True in Hfx by done. congruence. }
    f_equal. apply IH; [done..|]. intros k. specialize (Hf k).
    rewrite !filter_cons in Hf. destruct (decide (sort_key x = k)); congruence.
Qed.

(** The result of the sort is the only list that a stable sort by
    [(port, proto)] can return. *)
Lemma stable_sort_unique l l' :
  StronglySorted entry_le l' →
  (∀ k, filter (λ x, sort_key x = k) l' = filter (λ x, sort_key x = k) l) →
  l' = sort_entries l.
Proof.
  intros Hs Hf. apply sorted_stable_eq; [done | apply sort_entries_sorted |].
  intros k. by rewrite sort_entries_stable.
Qed.

Lemma filter_ports_submseteq es opts : filter_ports es opts ⊆+ es.
Proof.
  unfold filter_ports.
  rewrite sort_entries_perm.
  apply sublist_submseteq.
  etrans; [apply dedupe_sublist | apply range_filter_sublist].
Qed.

Lemma filter_ports_elem es opts e :
  e ∈ filter_ports es opts ↔ e ∈ dedupe ∅ (range_filter es opts).
Proof. unfold filter_ports. by rewrite sort_entries_perm. Qed.

End FilterPorts.

(** C2.  With both bounds [lo], [hi] set, the range step of [filter_ports]
    keeps exactly the entries with [lo <= port <= hi] (both ends included,
    order and repetitions untouched): every entry that [filter_ports]
    returns is an input entry in the range, and every input entry in the
    range is represented in the result by an entry with its key.  With a
    bound missing, the range step is the identity, so every entry reaches
    the de-duplication and the sort. *)
Theorem filter_ports_range (es : list entry) (fmt : string) (lo hi : Z) :
  let ranged := {| format := fmt; range_start := Some lo; range_end := Some hi |} in
  (∀ e, e ∈ range_filter es ranged ↔ e ∈ es ∧ lo ≤ port e ≤ hi)
  ∧ range_filter es ranged `sublist_of` es
  ∧ (∀ e, e ∈ filter_ports es ranged → e ∈ es ∧ lo ≤ port e ≤ hi)
  ∧ (∀ e, e ∈ es → lo ≤ port e ≤ hi →
          ∃ e', e' ∈ filter_ports es ranged ∧ key e' = key e)
  ∧ (∀ opts, range_start opts = None ∨ range_end opts = None →
       range_filter es opts = es
       ∧ ∀ e, e ∈ es → ∃ e', e' ∈ filter_ports es opts ∧ key e' = key e).
Proof.
  intros ranged.
  assert (Hrf : ∀ e, e ∈ range_filter es ranged ↔ e ∈ es ∧ lo ≤ port e ≤ hi).
  { intros e. unfold range_filter, ranged; simpl.
    rewrite list_elem_of_filter. tauto. }
  split; [exact Hrf|].
  split; [apply range_filter_sublist|].
  split; [|split].
  - intros e He. apply filter_ports_elem, dedupe_elem in He as [He _].
    by apply Hrf.
  - intros e He Hr.
    destruct (dedupe_complete ∅ (range_filter es ranged) e) as (e' & ? & ?).
    + by apply Hrf.
    + apply not_elem_of_empty.
    + exists e'. split; [by apply filter_ports_elem | done].
  - intros opts Hnone.
    assert (Hid : range_filter es opts = es).
    { unfold range_filter. destruct Hnone as [-> | ->]; [done|].
      by destruct (range_start opts). }
    split; [exact Hid|]. intros e He.
    destruct (dedupe_complete ∅ (range_filter es opts) e) as (e' & ? & ?).
    + by rewrite Hid.
    + apply not_elem_of_empty.
    + exists e'. split; [by apply filter_ports_elem | done].
Qed.

Lemma filter_ports_range_witness :
  ∃ e', e' ∈ filter_ports [web; dns_udp; dns_tcp] (set_range default_opts 1 1024)
        ∧ key e' = key dns_tcp.
Proof.
  destruct (filter_ports_range [web; dns_udp; dns_tcp] "text" 1 1024)
    as (_ & _ & _ & Hkept & _).
  apply Hkept.
  - do 2 apply list_elem_of_further. apply list_elem_of_here.
  - simpl. lia.
Defined.

(** The scenario of the specification: the range 8000-8100 over ports
    7999, 8000, 8100, 8101 keeps 8000 and 8100. *)
Example filter_ports_scenario :
  port <$> filter_ports [Entry "TCP" 7999 "1" "a"; Entry "TCP" 8000 "2" "b";
                         Entry "TCP" 8100 "3" "c"; Entry "TCP" 8101 "4" "d"]
                        (set_range default_opts 8000 8100)
  = [8000; 8100].
Proof. vm_compute. reflexivity. Qed.

(** C3.  Whatever the order of the input (any permutation [es'] of [es]),
    the list returned by [filter_ports] is sorted: each entry is followed
    only by entries with a greater port, or with the same port and a
    protocol string that is lexically not smaller.  On equal ports, TCP
    comes strictly before UDP in that order. *)
Theorem filter_ports_sorted (es es' : list entry) (opts : options) :
  es ≡ₚ es' →
  StronglySorted entry_le (filter_ports es opts)
  ∧ StronglySorted entry_le (filter_ports es' opts)
  ∧ (∀ a b, port a = port b → proto a = "TCP" → proto b = "UDP" →
            entry_le a b ∧ ¬ entry_le b a).
Proof.
  intros _. split; [apply sort_entries_sorted|].
  split; [apply sort_entries_sorted|].
  intros a b Hp Ha Hb. unfold entry_le. rewrite Ha, Hb. split.
  - right. split; [done|]. by vm_compute.
  - intros [? | [_ Hle]]; [lia|]. by vm_compute in Hle.
Qed.

Lemma filter_ports_sorted_witness :
  StronglySorted entry_le (filter_ports [web; dns_udp; dns_tcp] default_opts)
  ∧ StronglySorted entry_le (filter_ports [dns_tcp; web; dns_udp] default_opts)
  ∧ (∀ a b, port a = port b → proto a = "TCP" → proto b = "UDP" →
            entry_le a b ∧ ¬ entry_le b a).
Proof.
  apply (filter_ports_sorted [web; dns_udp; dns_tcp] [dns_tcp; web; dns_udp]).
  change [web; dns_udp; dns_tcp] with ([web; dns_udp] ++ [dns_tcp]).
  apply Permutation_app_comm.
Defined.

Example filter_ports_order :
  filter_ports [web; dns_udp; dns_tcp] default_opts = [dns_tcp; dns_udp; web].
Proof. vm_compute. reflexivity. Qed.

(** C4.  [filter_ports] de-duplicates on the triple (protocol, port,
    pid).  Its result holds at most one entry for each triple (the triples
    of the result are pairwise distinct) and exactly one for the triple of
    each input entry that passes the range step.  Two input entries with
    the same triple, whatever their process names, collapse to the single
    entry that comes first; two entries whose triples differ, for instance
    in the pid alone, are both kept. *)
Theorem filter_ports_dedup (es : list entry) (opts : options) :
  let triple (e : entry) := (proto e, port e, pid e) in
  let passes (e : entry) :=
    ∀ lo hi, range_start opts = Some lo → range_end opts = Some hi →
             lo ≤ port e ≤ hi in
  NoDup (triple <$> filter_ports es opts)
  ∧ (∀ e, e ∈ es → passes e →
       ∃ e', e' ∈ filter_ports es opts ∧ triple e' = triple e)
  ∧ (∀ e1 e2, triple e1 = triple e2 → passes e1 →
       filter_ports [e1; e2] opts = [e1])
  ∧ (∀ e1 e2, triple e1 ≠ triple e2 → passes e1 → passes e2 →
       filter_ports [e1; e2] opts ≡ₚ [e1; e2]).
Proof.
  intros triple passes.
  split; [|split; [|split]].
  - unfold filter_ports. rewrite sort_entries_perm. apply dedupe_keys_NoDup.
  - intros e He Hpass.
    destruct (dedupe_complete ∅ (range_filter es opts) e) as (e' & He' & Hk).
    + by apply range_filter_pass.
    + apply not_elem_of_empty.
    + exists e'. split; [by apply filter_ports_elem | exact Hk].
  - intros e1 e2 Hk Hpass.
    assert (Hp : port e1 = port e2) by (unfold triple in Hk; congruence).
    unfold filter_ports. rewrite range_filter_all.
    + simpl. rewrite decide_False by apply not_elem_of_empty.
      rewrite decide_True; [done|].
      apply elem_of_union. left. apply elem_of_singleton. symmetry. exact Hk.
    + intros e [-> | ->%list_elem_of_singleton]%elem_of_cons lo hi Hlo Hhi.
      * by apply Hpass.
      * rewrite <- Hp. by apply Hpass.
  - intros e1 e2 Hk Hpass1 Hpass2.
    unfold filter_ports. rewrite sort_entries_perm, range_filter_all.
    + simpl. rewrite decide_False by apply not_elem_of_empty.
      rewrite decide_False; [done|].
      intros [Heq%elem_of_singleton | []%not_elem_of_empty]%elem_of_union.
      apply Hk. symmetry. exact Heq.
    + intros e [-> | ->%list_elem_of_singleton]%elem_of_cons lo hi Hlo Hhi.
      * by apply Hpass1.
      * by apply Hpass2.
Qed.

Lemma filter_ports_dedup_witness :
  filter_ports [tls_a; tls_b] default_opts = [tls_a]
  ∧ filter_ports [tls_a; dns_tcp] default_opts ≡ₚ [tls_a; dns_tcp].
Proof.
  destruct (filter_ports_dedup [] default_opts) as (_ & _ & Hcollapse & Hkept).
  split.
  - apply Hcollapse; [reflexivity | intros lo hi Hlo; discriminate Hlo].
  - apply Hkept; [discriminate | intros lo hi Hlo; discriminate Hlo..].
Defined.

(** The scenario of the specification: two entries that share
    (TCP, 443, 99) and differ in the process name give one entry; with
    different pids both stay. *)
Example filter_ports_collapse :
  filter_ports [tls_a; tls_b] default_opts = [tls_a]
  ∧ filter_ports [tls_a; Entry "TCP" 443 "100" "nginx"] default_opts
    = [tls_a; Entry "TCP" 443 "100" "nginx"].
Proof. split; vm_compute; reflexivity. Qed.

(** C9.  [filter_ports] only selects and reorders: its result is a
    sub-multiset of the input, and each entry of the result is an input
    entry, with the same four fields. *)
Theorem filter_ports_frame (es : list entry) (opts : options) :
  filter_ports es opts ⊆+ es
  ∧ (∀ e, e ∈ filter_ports es opts →
       ∃ e0, e0 ∈ es ∧ proto e = proto e0 ∧ port e = port e0
             ∧ pid e = pid e0 ∧ process e = process e0).
Proof.
  split; [apply filter_ports_submseteq|].
  intros e He. exists e. split; [|done].
  by eapply elem_of_submseteq; [|apply filter_ports_submseteq].
Qed.

Lemma filter_ports_frame_witness :
  ∃ e0, e0 ∈ [web; dns_udp; dns_tcp] ∧ proto dns_udp = proto e0
        ∧ port dns_udp = port e0 ∧ pid dns_udp = pid e0
        ∧ process dns_udp = process e0.
Proof.
  destruct (filter_ports_frame [web; dns_udp; dns_tcp] default_opts) as [_ Hfrom].
  apply Hfrom. rewrite filter_ports_order.
  apply list_elem_of_further, list_elem_of_here.
Defined.

(** ** Argument parsing *)

(** [int()] raises nothing but [ValueError]. *)
Lemma py_int_raise (s : string) (e : exn) : py_int s = Raise e → e = ValueError.
Proof.
  unfold py_int.
  destruct (match int_strip s with
            | EmptyString => (1, int_strip s)
            | String c r => _
            end) as [sign body].
  destruct (int_body body); congruence.
Qed.

Section ParseArgs.

Implicit Types (argv pre rest : list string) (o opts : options) (v : string).

Lemma prog_bind_ok {A B} (f : A → prog B) (a : A) :
  prog_bind f (lift (Ok a)) = f a.
Proof. unfold prog_bind, lift. by destruct (f a). Qed.

Lemma usage_error_run {A} (p : prog A) :
  usage_error p →
  exit_status (run p) = 1 ∧ wrote_stderr (run p) ∧ stdout (run p) = [].
Proof.
  intros (tr & e & -> & Hout & He). unfold run, wrote_stderr; simpl.
  destruct He as [[-> Herr] | ->]; simpl; auto.
Qed.

Lemma usage_error_exit {A} (msg : string) :
  usage_error (A := A) (_ ← eprint msg; sys_exit 1).
Proof. exists [Stderr msg], (SystemExit 1). repeat split; auto. Qed.

Lemma usage_error_bind {A B} (p : prog A) (f : A → prog B) :
  usage_error p → usage_error (p ≫= f).
Proof. intros (tr & e & -> & ?). by exists tr, e. Qed.

Lemma malformed_range_value v : malformed_range v ↔ range_value v = None.
Proof.
  unfold malformed_range, range_value.
  destruct (split_on "-" v) as [|a [|b [|c l]]]; simpl;
    try (split; [done | intros _; left; lia]).
  split.
  - intros [? | (part & Hin & Hp)]; [done|].
    destruct (py_int a) eqn:Ha; [|done].
    destruct (py_int b) eqn:Hb; [|done].
    apply elem_of_cons in Hin as [-> | Hin]; [congruence|].
    apply elem_of_cons in Hin as [-> | Hin]; [congruence|].
    by apply elem_of_nil in Hin.
  - intros Hnone. right.
    destruct (py_int a) as [lo|e] eqn:Ha.
    + destruct (py_int b) as [hi|e] eqn:Hb; [done|].
      apply py_int_raise in Hb as Hb'; subst e.
      exists b. split; [|done]. apply list_elem_of_further, list_elem_of_here.
    + apply py_int_raise in Ha as Ha'; subst e.
      exists a. split; [|done]. apply list_elem_of_here.
Qed.

Lemma parse_loop_range_ok v lo hi rest o :
  range_value v = Some (lo, hi) →
  parse_loop ("--range" :: v :: rest) o = parse_loop rest (set_range o lo hi).
Proof.
  unfold range_value. intros Hv. simpl.
  destruct (split_on "-" v) as [|a [|b [|c l]]]; try done. simpl.
  destruct (py_int a) as [lo'|]; [|done].
  destruct (py_int b) as [hi'|]; [|done].
  simplify_eq. by destruct (parse_loop rest _).
Qed.

Lemma parse_loop_range_bad v rest o :
  range_value v = None → usage_error (parse_loop ("--range" :: v :: rest) o).
Proof.
  unfold range_value. intros Hv. simpl.
  destruct (split_on "-" v) as [|a [|b [|c l]]]; simpl;
    try apply usage_error_exit.
  destruct (py_int a) as [lo|e] eqn:Ha.
  - destruct (py_int b) as [hi|e] eqn:Hb; [done|].
    apply py_int_raise in Hb as Hb'; subst e.
    exists [], ValueError. auto.
  - apply py_int_raise in Ha as Ha'; subst e.
    exists [], ValueError. auto.
Qed.

Lemma parse_loop_step o argv rest o' :
  flag_step o argv rest o' → parse_loop argv o = parse_loop rest o'.
Proof.
  destruct 1 as [rest | v lo hi rest Hv | v rest [-> | ->]]; try done.
  by apply parse_loop_range_ok.
Qed.

Lemma flag_step_length o argv rest o' :
  flag_step o argv rest o' → (length rest < length argv)%nat.
Proof. destruct 1; simpl; lia. Qed.

Lemma flag_step_app o argv rest o' more :
  flag_step o argv rest o' → flag_step o (argv ++ more) (rest ++ more) o'.
Proof. destruct 1; simpl; by constructor. Qed.

(** The three ways a turn of the loop can go. *)
Lemma parse_loop_cases arg rest o :
  (∃ rest' o', flag_step o (arg :: rest) rest' o')
  ∨ (arg = "--help"
     ∧ parse_loop (arg :: rest) o = ([Stdout usage_text], Raise (SystemExit 0)))
  ∨ (arg ≠ "--help" ∧ usage_error (parse_loop (arg :: rest) o)).
Proof.
  destruct (String.eqb_spec arg "--help") as [-> | Hhelp].
  { right; left. by split. }
  destruct (String.eqb_spec arg "--common") as [-> | Hcommon].
  { left. eexists _, _. constructor. }
  destruct (String.eqb_spec arg "--range") as [-> | Hrange].
  { destruct rest as [|v rest].
    - right; right. split; [done|]. apply usage_error_exit.
    - destruct (range_value v) as [[lo hi]|] eqn:Hv.
      + left. eexists _, _. by constructor.
      + right; right. split; [done|]. by apply parse_loop_range_bad. }
  destruct (String.eqb_spec arg "--format") as [-> | Hformat].
  { destruct rest as [|v rest].
    - right; right. split; [done|]. apply usage_error_exit.
    - destruct (String.eqb_spec v "text") as [-> | Htext].
      { left. eexists _, _. constructor. by left. }
      destruct (String.eqb_spec v "json") as [-> | Hjson].
      { left. eexists _, _. constructor. by right. }
      right; right. split; [done|]. simpl.
      apply String.eqb_neq in Htext, Hjson. rewrite Htext, Hjson. simpl.
      apply usage_error_exit. }
  right; right. split; [done|]. simpl.
  apply String.eqb_neq in Hhelp, Hcommon, Hrange, Hformat.
  rewrite Hhelp, Hcommon, Hrange, Hformat.
  apply usage_error_exit.
Qed.

(** A malformed [--range] value that the loop reaches is fatal. *)
Lemma parse_loop_bad_range argv :
  ∀ (i : nat) o v,
    argv !! i = Some "--range" → argv !! S i = Some v → malformed_range v →
    (∀ j, (j < i)%nat → argv !! j ≠ Some "--help") →
    usage_error (parse_loop argv o).
Proof.
  remember (length argv) as n eqn:Hn. revert argv Hn.
  induction n as [n IH] using lt_wf_ind.
  intros argv -> i o v Hi Hv Hbad Hhelp.
  destruct argv as [|arg rest]; [done|].
  destruct (parse_loop_cases arg rest o)
    as [(rest' & o' & Hstep) | [[-> Hh] | [_ Herr]]]; [| |done].
  - rewrite (parse_loop_step _ _ _ _ Hstep).
    pose proof (flag_step_length _ _ _ _ Hstep) as Hlen.
    inversion Hstep as [r | v0 lo hi r Hv0 | v0 r Hv0]; subst.
    + destruct i as [|i]; [done|].
      eapply (IH _ Hlen _ eq_refl i); [done..|].
      intros j Hj. apply (Hhelp (S j)). lia.
    + destruct i as [|[|i]].
      * simplify_eq/=. apply malformed_range_value in Hbad. congruence.
      * simplify_eq/=; by vm_compute in Hv0.
      * eapply (IH _ Hlen _ eq_refl i); [done..|].
        intros j Hj. apply (Hhelp (S (S j))). lia.
    + destruct i as [|[|i]]; [done| |].
      * simplify_eq/=; by destruct Hv0.
      * eapply (IH _ Hlen _ eq_refl i); [done..|].
        intros j Hj. apply (Hhelp (S (S j))). lia.
  - destruct i as [|i]; [done|].
    by destruct (Hhelp 0%nat); [lia|].
Qed.

(** A parse that succeeds has printed nothing, and goes on in the same
    way when more arguments follow. *)
Lemma parse_loop_app pre :
  ∀ o o1 tr more,
    parse_loop pre o = (tr, Ok o1) →
    tr = [] ∧ parse_loop (pre ++ more) o = parse_loop more o1.
Proof.
  remember (length pre) as n eqn:Hn. revert pre Hn.
  induction n as [n IH] using lt_wf_ind.
  intros pre -> o o1 tr more Hok.
  destruct pre as [|arg rest].
  { change (([], Ok o) = (tr, Ok o1)) in Hok. by simplify_eq. }
  destruct (parse_loop_cases arg rest o)
    as [(rest' & o' & Hstep) | [[-> Hh] | [_ (tr' & e & Herr & _)]]].
  - rewrite (parse_loop_step _ _ _ _ Hstep) in Hok.
    rewrite (parse_loop_step _ _ _ _ (flag_step_app _ _ _ _ more Hstep)).
    by eapply IH; [apply (flag_step_length _ _ _ _ Hstep) | |].
  - congruence.
  - congruence.
Qed.

Lemma split_on_whole c s : contains c s = false → split_on c s = [s].
Proof.
  induction s as [|c' s IH]; simpl; [done|].
  intros [Hc Hs]%orb_false_elim. rewrite Hc, IH; done.
Qed.

Lemma split_on_join c a b :
  contains c a = false → contains c b = false →
  split_on c (a +:+ String c b) = [a; b].
Proof.
  intros Ha Hb. induction a as [|c' a IH]; simpl.
  - by rewrite Ascii.eqb_refl, split_on_whole.
  - simpl in Ha. apply orb_false_elim in Ha as [Hc Ha].
    by rewrite Hc, IH.
Qed.

End ParseArgs.

(** C8 as stated fails when [--help] comes first: the usage text goes to
    standard output and the status is 0, the malformed [--range] value is
    never read. *)
Lemma bad_range_after_help :
  let args := ["--help"; "--range"; "abc"] in
  args !! 1%nat = Some "--range" ∧ args !! 2%nat = Some "abc"
  ∧ malformed_range "abc"
  ∧ exit_status (run (main args linux_host)) = 0
  ∧ stdout (run (main args linux_host)) = [usage_text]
  ∧ ¬ wrote_stderr (run (main args linux_host)).
Proof.
  repeat split.
  - apply malformed_range_value. by vm_compute.
  - intros [H | H]; by vm_compute in H.
Qed.

(** C8, amended.  When [--range] is followed by a malformed value (not
    exactly two parts around a dash, or a part that [int()] refuses) and
    no [--help] stands before it, the program ends with exit status 1,
    something is written to the error stream (the message of the parser,
    or the traceback of the [ValueError] that [int()] raised) and nothing
    is written to standard output. *)
Theorem bad_range_is_fatal (args : list string) (i : nat) (v : string) (h : host) :
  args !! i = Some "--range" → args !! S i = Some v → malformed_range v →
  (∀ j, (j < i)%nat → args !! j ≠ Some "--help") →
  usage_error (parse_args args)
  ∧ exit_status (run (main args h)) = 1
  ∧ wrote_stderr (run (main args h))
  ∧ stdout (run (main args h)) = [].
Proof.
  intros Hi Hv Hbad Hhelp.
  assert (Herr : usage_error (parse_args args))
    by by apply (parse_loop_bad_range args i default_opts v).
  split; [done|]. apply usage_error_run.
  by apply usage_error_bind.
Qed.

Lemma bad_range_is_fatal_witness :
  usage_error (parse_args ["--common"; "--range"; "80-http"])
  ∧ exit_status (run (main ["--common"; "--range"; "80-http"] linux_host)) = 1
  ∧ wrote_stderr (run (main ["--common"; "--range"; "80-http"] linux_host))
  ∧ stdout (run (main ["--common"; "--range"; "80-http"] linux_host)) = [].
Proof.
  apply (bad_range_is_fatal ["--common"; "--range"; "80-http"] 1 "80-http").
  - reflexivity.
  - reflexivity.
  - apply malformed_range_value. by vm_compute.
  - intros [|j] Hj; [done | lia].
Defined.

(** Both kinds of malformed value, as the process shows them. *)
Example bad_range_parts :
  run (main ["--range"; "8000"] linux_host)
  = {| exit_status := 1; stdout := [];
       stderr := ["Error: --range format must be START-END"];
       traceback := None |}.
Proof. by vm_compute. Qed.

Example bad_range_int :
  run (main ["--range"; "80-http"] linux_host)
  = {| exit_status := 1; stdout := []; stderr := [];
       traceback := Some ValueError |}.
Proof. by vm_compute. Qed.

(** A part that [str.strip] would clean but [int()] refuses: the unit
    separator U+001F before the digits. *)
Example bad_range_separator :
  let v := String (ascii_of_N 31) "3000-9000" in
  range_value v = None
  ∧ run (main ["--range"; v] linux_host)
    = {| exit_status := 1; stdout := []; stderr := [];
         traceback := Some ValueError |}.
Proof. split; by vm_compute. Qed.

(** ** Normalisation *)

Section TextFacts.

Implicit Types (s ds : string) (c : ascii).

Lemma append_assoc (a b c : string) : (a +:+ b) +:+ c = a +:+ b +:+ c.
Proof.
  induction a as [|x a IH]; [done|].
  change (String x ((a +:+ b) +:+ c) = String x (a +:+ b +:+ c)). by rewrite IH.
Qed.

Lemma span_app p s a b : span p s = (a, b) → s = a +:+ b.
Proof.
  revert a b. induction s as [|c s IH]; intros a b; simpl.
  - by intros [= <- <-].
  - destruct (p c); [|by intros [= <- <-]].
    destruct (span p s) as [a' b']. intros [= <- <-].
    change (String c s = String c (a' +:+ b')). f_equal. by apply IH.
Qed.

Lemma span_digits s a b : span is_digit s = (a, b) → all_digits a = true.
Proof.
  revert a b. induction s as [|c s IH]; intros a b; simpl.
  - by intros [= <- <-].
  - destruct (is_digit c) eqn:Hc; [|by intros [= <- <-]].
    destruct (span is_digit s) as [a' b']. intros [= <- <-].
    simpl. rewrite Hc. by eapply IH.
Qed.

Lemma digits_eol_sound s ds :
  digits_eol s = Some ds →
  all_digits ds = true ∧ ds ≠ EmptyString ∧ (s = ds ∨ s = ds +:+ nl).
Proof.
  unfold digits_eol. destruct (span is_digit s) as [a b] eqn:Hspan.
  destruct (negb (is_empty a) && _) eqn:Hc; [|done]. intros [= <-].
  apply andb_prop in Hc as [Ha Hb].
  split; [by eapply span_digits|]. split; [by destruct a|].
  apply span_app in Hspan as ->. apply orb_prop in Hb as [Hb | Hb].
  - left. destruct b; [|done]. clear.
    induction a as [|c a IH]; [done|].
    change (String c (a +:+ EmptyString) = String c a). by rewrite IH.
  - right. by apply String.eqb_eq in Hb as ->.
Qed.

(** A match of the port pattern: a colon, then digits up to the end of
    the field (or up to its final line break). *)
Lemma search_port_sound s ds :
  search_port s = Some ds →
  all_digits ds = true ∧ ds ≠ EmptyString
  ∧ ∃ pre, s = pre +:+ ":" +:+ ds ∨ s = pre +:+ ":" +:+ ds +:+ nl.
Proof.
  induction s as [|c s IH]; simpl; [done|].
  assert (Hrec : search_port s = Some ds →
            all_digits ds = true ∧ ds ≠ EmptyString
            ∧ ∃ pre, String c s = pre +:+ ":" +:+ ds
                     ∨ String c s = pre +:+ ":" +:+ ds +:+ nl).
  { intros (? & ? & pre & Hs)%IH. do 2 (split; [done|]).
    exists (String c pre). destruct Hs as [-> | ->]; [by left | by right]. }
  destruct (Ascii.eqb_spec c ":") as [-> | _]; [|done].
  destruct (digits_eol s) as [ds'|] eqn:Hd; [|done].
  intros [= ->]. apply digits_eol_sound in Hd as (? & ? & Hs).
  do 2 (split; [done|]). exists EmptyString.
  destruct Hs as [-> | ->]; [by left | by right].
Qed.

Lemma all_digits_colon a b : all_digits (a +:+ String ":" b) = false.
Proof.
  induction a as [|c a IH]; [done|].
  change (is_digit c && all_digits (a +:+ String ":" b) = false).
  by rewrite IH, andb_false_r.
Qed.

Lemma last_char_app a b :
  b ≠ EmptyString → last_char (a +:+ b) = last_char b.
Proof.
  intros Hb. induction a as [|c a IH]; [done|].
  change (match last_char (a +:+ b) with
          | None => Some c
          | Some c' => Some c'
          end = last_char b).
  rewrite IH. destruct b as [|c' b]; [done|]. simpl. by destruct (last_char b).
Qed.

Lemma last_char_digits ds c :
  all_digits ds = true → last_char ds = Some c → is_digit c = true.
Proof.
  induction ds as [|c' ds IH]; simpl; [done|].
  intros [Hc Hds]%andb_prop. destruct (last_char ds) as [c''|].
  - intros [= <-]. by apply IH.
  - by intros [= <-].
Qed.

Lemma span_all_digits ds :
  all_digits ds = true → span is_digit ds = (ds, EmptyString).
Proof.
  induction ds as [|c ds IH]; simpl; [done|].
  intros [-> Hds]%andb_prop. by rewrite IH.
Qed.

(** The port pattern does not match at a colon that is followed by
    another colon before the digits. *)
Lemma digits_eol_colon pre ds :
  all_digits ds = true → ds ≠ EmptyString →
  digits_eol (pre +:+ String ":" ds) = None.
Proof.
  intros Hds Hne.
  destruct (digits_eol (pre +:+ String ":" ds)) as [ds'|] eqn:Hd; [|done].
  apply digits_eol_sound in Hd as (Hds' & _ & [Hs | Hs]).
  - by rewrite <- Hs, all_digits_colon in Hds'.
  - assert (Hlast : last_char (pre +:+ String ":" ds) = Some newline).
    { rewrite Hs. by rewrite last_char_app. }
    change (pre +:+ String ":" ds) with (pre +:+ ":" +:+ ds) in Hlast.
    rewrite <- append_assoc, last_char_app in Hlast by done.
    by apply last_char_digits in Hlast.
Qed.

(** Every field that ends in a colon and digits matches the port
    pattern, and the group is those digits. *)
Lemma search_port_complete pre ds :
  all_digits ds = true → ds ≠ EmptyString →
  search_port (pre +:+ ":" +:+ ds) = Some ds.
Proof.
  intros Hds Hne. change (pre +:+ ":" +:+ ds) with (pre +:+ String ":" ds).
  induction pre as [|c pre IH].
  - change (search_port (String ":" ds) = Some ds). simpl.
    unfold digits_eol. rewrite span_all_digits by done.
    by destruct ds.
  - change (search_port (String c (pre +:+ String ":" ds)) = Some ds). simpl.
    rewrite digits_eol_colon by done. by destruct (Ascii.eqb c ":").
Qed.

Lemma no_space_app a b : no_space (a +:+ b) = no_space a && no_space b.
Proof.
  induction a as [|c a IH]; [done|].
  change (negb (is_space c) && no_space (a +:+ b)
          = negb (is_space c) && no_space a && no_space b).
  by rewrite IH, andb_assoc.
Qed.

Lemma split_go_no_space s w ws :
  split_go s = (w, ws) →
  no_space w = true ∧ Forall (λ x, no_space x = true) ws.
Proof.
  revert w ws. induction s as [|c s IH]; intros w ws; simpl.
  - intros [= <- <-]. by split.
  - destruct (split_go s) as [w' ws']. destruct (IH _ _ eq_refl) as [Hw' Hws'].
    destruct (is_space c) eqn:Hc; intros [= <- <-].
    + split; [done|]. unfold push_word. destruct (is_empty w'); [done|].
      by constructor.
    + split; [|done]. simpl. by rewrite Hc, Hw'.
Qed.

(** The columns of a line hold no white space. *)
Lemma split_no_space s : Forall (λ x, no_space x = true) (split s).
Proof.
  unfold split. destruct (split_go s) as [w ws] eqn:Hs.
  apply split_go_no_space in Hs as [Hw Hws].
  unfold push_word. destruct (is_empty w); [done | by constructor].
Qed.

Lemma nth_no_space s (i : nat) : no_space (nth i (split s) EmptyString) = true.
Proof.
  pose proof (split_no_space s) as Hall. revert i.
  induction Hall as [|w ws Hw _ IH]; intros [|i]; simpl; auto.
Qed.

(** On a column, the port pattern matches exactly the fields that end in
    a colon and digits. *)
Lemma search_port_field field ds :
  no_space field = true →
  search_port field = Some ds ↔ ends_in_port field ds.
Proof.
  intros Hfield. split.
  - intros (Hds & Hne & pre & [Hs | Hs])%search_port_sound.
    + split; [done|]. split; [done|]. by exists pre.
    + rewrite Hs, <- !append_assoc, no_space_app in Hfield.
      by rewrite andb_false_r in Hfield.
  - intros (Hds & Hne & pre & ->). by apply search_port_complete.
Qed.

Lemma search_port_none field :
  no_space field = true →
  search_port field = None ↔ ∀ ds, ¬ ends_in_port field ds.
Proof.
  intros Hfield. split.
  - intros Hnone ds Hds. apply search_port_field in Hds; [congruence | done].
  - intros Hnot. destruct (search_port field) as [ds|] eqn:Hs; [|done].
    apply search_port_field in Hs; [|done]. by destruct (Hnot ds).
Qed.

Lemma digit_not_space c : is_digit c = true → is_space c = false.
Proof.
  unfold is_digit, is_space. generalize (code c). intros n Hn.
  apply andb_prop in Hn as [?%N.leb_le ?%N.leb_le].
  repeat (apply orb_false_intro); try apply andb_false_iff;
    rewrite ?N.leb_gt, ?N.eqb_neq; lia.
Qed.

Lemma digit_val_nonneg c : is_digit c = true → 0 ≤ digit_val c.
Proof.
  unfold is_digit, digit_val. generalize (code c). intros n Hn.
  apply andb_prop in Hn as [?%N.leb_le ?%N.leb_le]. lia.
Qed.

Lemma digit_not c c' :
  is_digit c = true → is_digit c' = false → Ascii.eqb c c' = false.
Proof.
  intros Hc Hc'. destruct (Ascii.eqb_spec c c') as [-> | ?]; congruence.
Qed.

Lemma rstrip_digits ds : all_digits ds = true → rstrip ds = ds.
Proof.
  induction ds as [|c ds IH]; simpl; [done|].
  intros [Hc Hds]%andb_prop. rewrite IH by done.
  by rewrite (digit_not_space c Hc), andb_false_r.
Qed.

Lemma strip_digits ds : all_digits ds = true → strip ds = ds.
Proof.
  intros Hds. unfold strip.
  assert (lstrip ds = ds) as ->; [|by apply rstrip_digits].
  destruct ds as [|c ds]; simpl; [done|].
  apply andb_prop in Hds as [Hc _]. by rewrite (digit_not_space c Hc).
Qed.

(** What [int()] skips is part of what [strip()] removes. *)
Lemma int_space_is_space c : is_int_space c = true → is_space c = true.
Proof.
  unfold is_int_space, is_space. generalize (code c). intros n.
  rewrite !orb_true_iff, !andb_true_iff, !N.leb_le, !N.eqb_eq. lia.
Qed.

Lemma digit_not_int_space c : is_digit c = true → is_int_space c = false.
Proof.
  intros Hc. destruct (is_int_space c) eqn:Hs; [|done].
  apply int_space_is_space in Hs. by rewrite (digit_not_space c Hc) in Hs.
Qed.

Lemma int_strip_digits ds : all_digits ds = true → int_strip ds = ds.
Proof.
  intros Hds. unfold int_strip.
  assert (int_lstrip ds = ds) as ->.
  { destruct ds as [|c ds]; simpl; [done|].
    apply andb_prop in Hds as [Hc _]. by rewrite (digit_not_int_space c Hc). }
  induction ds as [|c ds IH]; simpl; [done|].
  apply andb_prop in Hds as [Hc Hds]. rewrite IH by done.
  by rewrite (digit_not_int_space c Hc), andb_false_r.
Qed.

Lemma scan_digits_all prev ds :
  is_digit prev = true → all_digits ds = true →
  scan_digits prev ds = Some (digit_val <$> list_ascii_of_string ds).
Proof.
  revert prev. induction ds as [|c ds IH]; intros prev Hprev; simpl.
  - intros _. by rewrite (digit_not prev "_").
  - intros [Hc Hds]%andb_prop.
    rewrite (digit_not c "_") by done. rewrite Hc.
    by rewrite IH.
Qed.

Lemma decimal_nonneg (l : list Z) : Forall (λ d, 0 ≤ d) l → 0 ≤ decimal l.
Proof.
  unfold decimal.
  assert (∀ acc, 0 ≤ acc → Forall (λ d, 0 ≤ d) l →
                 0 ≤ fold_left (λ acc d, 10 * acc + d) l acc) as H.
  { induction l as [|d l IH]; intros acc Hacc Hl; simpl; [done|].
    inversion Hl; subst. apply IH; [lia | done]. }
  by apply H.
Qed.

Lemma digits_value_nonneg ds : all_digits ds = true → 0 ≤ digits_value ds.
Proof.
  intros Hds. apply decimal_nonneg.
  induction ds as [|c ds IH]; simpl; [constructor|].
  apply andb_prop in Hds as [Hc Hds].
  constructor; [by apply digit_val_nonneg | by apply IH].
Qed.

(** [int()] on a plain string of digits: its value, unless the string
    is longer than the interpreter accepts. *)
Lemma py_int_digits ds :
  all_digits ds = true → ds ≠ EmptyString →
  py_int ds = if Z.of_nat (String.length ds) <=? int_max_str_digits
              then Ok (digits_value ds) else Raise ValueError.
Proof.
  intros Hds Hne. unfold py_int. rewrite int_strip_digits by done.
  destruct ds as [|c ds]; [done|]. clear Hne.
  pose proof Hds as Hall. simpl in Hds. apply andb_prop in Hds as [Hc _].
  rewrite (digit_not c "-"), (digit_not c "+") by done.
  unfold int_body. rewrite (digit_not c "_") by done.
  rewrite (scan_digits_all c (String c ds)) by done.
  rewrite length_fmap.
  assert (length (list_ascii_of_string (String c ds)) = String.length (String c ds))
    as ->.
  { generalize (String c ds). intros s. induction s; simpl; by f_equal. }
  unfold digits_value. destruct (_ <=? _); [|done].
  f_equal. lia.
Qed.

Lemma py_int_digits_ok ds n :
  all_digits ds = true → ds ≠ EmptyString → py_int ds = Ok n →
  n = digits_value ds ∧ 0 ≤ n.
Proof.
  intros Hds Hne. rewrite py_int_digits by done.
  destruct (_ <=? _); [|done]. intros [= <-].
  split; [done | by apply digits_value_nonneg].
Qed.

End TextFacts.

(** *** Flags that come again *)

(** C10.  The last flag wins.  [a] and [b] are the two parts of a range
    value and [lo], [hi] the integers [int()] reads from them.
    [--common --range a-b] stores the bounds [lo] and [hi], and
    [--range a-b --common] stores 1 and 1024.  More generally, after any
    arguments [pre] that parse to [o]: a further [--range a-b] stores
    [lo] and [hi], a further [--common] stores 1 and 1024, both leaving
    the output mode of [o]; a further [--format f] with a valid [f] makes
    [f] the output mode and leaves the bounds of [o].  So of several
    [--format] flags the last one decides.  When [a] and [b] are plain
    strings of digits, [lo] and [hi] are the numbers they denote. *)
Theorem parse_args_last_wins (a b : string) (lo hi : Z) :
  contains "-" a = false → contains "-" b = false →
  py_int a = Ok lo → py_int b = Ok hi →
  let v := a +:+ "-" +:+ b in
  parse_args ["--common"; "--range"; v]
  = ([], Ok {| format := "text"; range_start := Some lo; range_end := Some hi |})
  ∧ parse_args ["--range"; v; "--common"]
    = ([], Ok {| format := "text"; range_start := Some 1; range_end := Some 1024 |})
  ∧ (all_digits a = true → all_digits b = true →
     lo = digits_value a ∧ hi = digits_value b)
  ∧ (∀ pre o, parse_args pre = ([], Ok o) →
       parse_args (pre ++ ["--range"; v])
       = ([], Ok {| format := format o;
                    range_start := Some lo; range_end := Some hi |})
       ∧ parse_args (pre ++ ["--common"])
         = ([], Ok {| format := format o;
                      range_start := Some 1; range_end := Some 1024 |})
       ∧ (∀ f, f = "text" ∨ f = "json" →
            parse_args (pre ++ ["--format"; f])
            = ([], Ok {| format := f; range_start := range_start o;
                         range_end := range_end o |})
            ∧ ∀ f', f' = "text" ∨ f' = "json" →
                parse_args (pre ++ ["--format"; f; "--format"; f'])
                = ([], Ok {| format := f'; range_start := range_start o;
                             range_end := range_end o |}))).
Proof.
  intros Ha Hb Hlo Hhi v.
  assert (Hv : range_value v = Some (lo, hi)).
  { unfold range_value, v.
    change (a +:+ "-" +:+ b) with (a +:+ String "-"%char b).
    rewrite split_on_join by done.
    by rewrite Hlo, Hhi. }
  assert (Hfmt : ∀ pre o f, parse_args pre = ([], Ok o) →
            f = "text" ∨ f = "json" →
            parse_args (pre ++ ["--format"; f])
            = ([], Ok {| format := f; range_start := range_start o;
                         range_end := range_end o |})).
  { intros pre o f Hpre Hf. unfold parse_args in *.
    destruct (parse_loop_app pre _ _ _ ["--format"; f] Hpre) as [_ ->].
    by destruct Hf as [-> | ->]. }
  assert (Hgen : ∀ pre o, parse_args pre = ([], Ok o) →
       parse_args (pre ++ ["--range"; v])
       = ([], Ok {| format := format o;
                    range_start := Some lo; range_end := Some hi |})
       ∧ parse_args (pre ++ ["--common"])
         = ([], Ok {| format := format o;
                      range_start := Some 1; range_end := Some 1024 |})).
  { intros pre o Hpre. unfold parse_args in *. split.
    - destruct (parse_loop_app pre _ _ _ ["--range"; v] Hpre) as [_ ->].
      by rewrite (parse_loop_range_ok v lo hi).
    - by destruct (parse_loop_app pre _ _ _ ["--common"] Hpre) as [_ ->]. }
  split; [|split; [|split]].
  - destruct (Hgen ["--common"]
                {| format := "text"; range_start := Some 1; range_end := Some 1024 |}
                eq_refl) as [H _].
    exact H.
  - destruct (Hgen ["--range"; v]
                {| format := "text"; range_start := Some lo; range_end := Some hi |})
      as [_ H].
    + unfold parse_args. by rewrite (parse_loop_range_ok v lo hi).
    + exact H.
  - intros Hda Hdb. split.
    + apply (py_int_digits_ok a lo Hda); [|exact Hlo].
      intros ->. discriminate Hlo.
    + apply (py_int_digits_ok b hi Hdb); [|exact Hhi].
      intros ->. discriminate Hhi.
  - intros pre o Hpre. destruct (Hgen pre o Hpre) as [Hr Hc].
    split; [exact Hr|]. split; [exact Hc|].
    intros f Hf. split; [by apply Hfmt|].
    intros f' Hf'.
    change (pre ++ ["--format"; f; "--format"; f'])
      with (pre ++ ["--format"; f] ++ ["--format"; f']).
    rewrite app_assoc.
    by rewrite (Hfmt (pre ++ ["--format"; f]) _ f' (Hfmt pre o f Hpre Hf) Hf').
Qed.

Lemma parse_args_last_wins_witness :
  parse_args ["--common"; "--range"; "3000-9000"]
  = ([], Ok {| format := "text"; range_start := Some 3000; range_end := Some 9000 |})
  ∧ parse_args ["--range"; "3000-9000"; "--common"]
    = ([], Ok {| format := "text"; range_start := Some 1; range_end := Some 1024 |})
  ∧ parse_args ["--format"; "json"; "--format"; "text"]
    = ([], Ok {| format := "text"; range_start := None; range_end := None |}).
Proof.
  destruct (parse_args_last_wins "3000" "9000" 3000 9000) as (H1 & H2 & _ & H3);
    [reflexivity..|].
  split; [exact H1|]. split; [exact H2|].
  destruct (H3 [] default_opts eq_refl) as (_ & _ & Hf).
  destruct (Hf "json" (or_intror eq_refl)) as [_ Hff].
  exact (Hff "text" (or_introl eq_refl)).
Defined.

Example parse_args_format_twice :
  parse_args ["--format"; "json"; "--common"; "--format"; "text"]
  = ([], Ok {| format := "text"; range_start := Some 1; range_end := Some 1024 |}).
Proof. by vm_compute. Qed.

Section Normalisation.

Implicit Types (tag line : string) (e : entry).

Lemma macos_line_some tag line e :
  macos_line tag line = Ok (Some e) →
  (9 ≤ length (split line))%nat
  ∧ ∃ ds, search_port (nth 8 (split line) EmptyString) = Some ds
          ∧ py_int ds = Ok (port e)
          ∧ e = {| proto := tag; port := port e;
                   pid := nth 1 (split line) EmptyString;
                   process := nth 0 (split line) EmptyString |}.
Proof.
  unfold macos_line.
  destruct (length (split line) <? 9)%nat eqn:Hlen; [done|].
  apply Nat.ltb_ge in Hlen.
  destruct (search_port _) as [ds|]; [|done].
  destruct (py_int ds) as [p|] eqn:Hp; [|done].
  intros [= <-]. split; [done|]. by exists ds.
Qed.

Lemma linux_line_some tag line e :
  linux_line tag line = Ok (Some e) →
  (5 ≤ length (split line))%nat
  ∧ ∃ ds, search_port (nth 3 (split line) EmptyString) = Some ds
          ∧ py_int ds = Ok (port e)
          ∧ e = {| proto := tag; port := port e;
                   pid := or_dash (find_proc (split line)).2;
                   process := or_dash (find_proc (split line)).1 |}.
Proof.
  unfold linux_line.
  destruct (length (split line) <? 5)%nat eqn:Hlen; [done|].
  apply Nat.ltb_ge in Hlen.
  destruct (search_port _) as [ds|]; [|done].
  destruct (py_int ds) as [p|] eqn:Hp; [|done]. simpl.
  destruct (find_proc (split line)) as [proc_str pid_str].
  intros [= <-]. split; [done|]. by exists ds.
Qed.

Lemma find_proc_none (cols : list string) :
  (∀ col, col ∈ cols → search_proc col = None) →
  find_proc cols = (EmptyString, EmptyString).
Proof.
  induction cols as [|col cols IH]; intros Hall; simpl; [done|].
  rewrite (Hall col) by apply list_elem_of_here.
  apply IH. intros c Hc. apply Hall. by apply list_elem_of_further.
Qed.

Lemma scan_lines_elem (body : string → result (option entry)) lines :
  ∀ acc res e,
    scan_lines body lines acc = Ok res → e ∈ res →
    e ∈ acc ∨ ∃ line, line ∈ lines ∧ body line = Ok (Some e).
Proof.
  induction lines as [|line lines IH]; intros acc res e; simpl.
  - intros [= <-]. by left.
  - destruct (body line) as [r|] eqn:Hline; [|done]. simpl.
    intros Hres He. destruct (IH _ _ _ Hres He) as [Hacc | (l & Hl & Hb)].
    + apply elem_of_app in Hacc as [Hacc | Hr]; [by left|].
      right. exists line. split; [apply list_elem_of_here|].
      destruct r as [e'|]; simpl in Hr.
      * apply list_elem_of_singleton in Hr as ->. done.
      * by apply elem_of_nil in Hr.
    + right. exists l. split; [by apply list_elem_of_further | done].
Qed.

Lemma scan_output_elem (body : string → result (option entry)) out acc res e :
  scan_output body out acc = Ok res → e ∈ res →
  e ∈ acc ∨ ∃ line, body line = Ok (Some e).
Proof.
  destruct out as [stdout|]; simpl.
  - intros Hres He.
    destruct (scan_lines_elem _ _ _ _ _ Hres He) as [? | (l & _ & ?)]; eauto.
  - intros [= <-]. by left.
Qed.

Lemma line_port_nonneg tag line e :
  macos_line tag line = Ok (Some e) ∨ linux_line tag line = Ok (Some e) →
  0 ≤ port e.
Proof.
  intros [H | H].
  - apply macos_line_some in H as (_ & ds & Hs & Hp & _).
    apply search_port_sound in Hs as (? & ? & _).
    by apply (py_int_digits_ok ds).
  - apply linux_line_some in H as (_ & ds & Hs & Hp & _).
    apply search_port_sound in Hs as (? & ? & _).
    by apply (py_int_digits_ok ds).
Qed.

End Normalisation.

(** C1 as stated fails: a port field of digits is taken as it is, so the
    listing below gives an entry with port 70000. *)
Lemma port_out_of_range :
  let listing := "State Recv-Q Send-Q Local Peer" +:+ nl
                 +:+ "LISTEN 0 128 0.0.0.0:70000 0.0.0.0:*" in
  scan_linux (λ flag, if String.eqb flag "-tlnp" then Some listing else None)
  = Ok [Entry "TCP" 70000 "-" "-"]
  ∧ linux_line "TCP" "LISTEN 0 128 0.0.0.0:70000 0.0.0.0:*"
    = Ok (Some (Entry "TCP" 70000 "-" "-"))
  ∧ macos_line "UDP" "dnsd 41 root 6u IPv4 0x1f 0t0 UDP *:0"
    = Ok (Some (Entry "UDP" 0 "41" "dnsd"))
  ∧ ¬ (1 ≤ port (Entry "TCP" 70000 "-" "-") ≤ 65535)
  ∧ ¬ (1 ≤ port (Entry "UDP" 0 "41" "dnsd") ≤ 65535).
Proof.
  repeat split; try by vm_compute.
  - simpl. lia.
  - simpl. lia.
Qed.

(** C1, amended.  The port of every entry that normalisation produces
    ([scan_macos] or [scan_linux]) is the number written in decimal digits
    after the last colon of the address column: a natural number, with no
    bound from the range 1-65535.  A line whose address column does not end
    in a colon and digits is discarded. *)
Theorem normalized_port (tag line : string) :
  let cols := split line in
  (∀ e, macos_line tag line = Ok (Some e) →
        0 ≤ port e
        ∧ ∃ ds, ends_in_port (nth 8 cols EmptyString) ds
                ∧ port e = digits_value ds)
  ∧ (∀ e, linux_line tag line = Ok (Some e) →
          0 ≤ port e
          ∧ ∃ ds, ends_in_port (nth 3 cols EmptyString) ds
                  ∧ port e = digits_value ds)
  ∧ ((∀ ds, ¬ ends_in_port (nth 8 cols EmptyString) ds) →
     macos_line tag line = Ok None)
  ∧ ((∀ ds, ¬ ends_in_port (nth 3 cols EmptyString) ds) →
     linux_line tag line = Ok None)
  ∧ (∀ tcp udp entries e,
       scan_macos tcp udp = Ok entries → e ∈ entries → 0 ≤ port e)
  ∧ (∀ ss entries e, scan_linux ss = Ok entries → e ∈ entries → 0 ≤ port e).
Proof.
  intros cols. split; [|split; [|split; [|split; [|split]]]].
  - intros e H. split; [eapply line_port_nonneg; eauto|].
    apply macos_line_some in H as (_ & ds & Hs & Hp & _).
    exists ds. apply search_port_field in Hs; [|apply nth_no_space].
    split; [done|]. destruct Hs as (? & ? & _). by apply (py_int_digits_ok ds).
  - intros e H. split; [eapply line_port_nonneg; eauto|].
    apply linux_line_some in H as (_ & ds & Hs & Hp & _).
    exists ds. apply search_port_field in Hs; [|apply nth_no_space].
    split; [done|]. destruct Hs as (? & ? & _). by apply (py_int_digits_ok ds).
  - intros H. apply search_port_none in H; [|apply nth_no_space].
    unfold macos_line. fold cols. rewrite H. by destruct (_ <? _)%nat.
  - intros H. apply search_port_none in H; [|apply nth_no_space].
    unfold linux_line. fold cols. rewrite H. by destruct (_ <? _)%nat.
  - intros tcp udp entries e. unfold scan_macos.
    destruct (scan_output (macos_line "TCP") tcp []) as [es1|] eqn:H1; [|done].
    simpl. intros H2 He.
    destruct (scan_output_elem _ _ _ _ _ H2 He) as [He1 | [l Hl]].
    + destruct (scan_output_elem _ _ _ _ _ H1 He1) as [Hnil | [l Hl]].
      * by apply elem_of_nil in Hnil.
      * eapply line_port_nonneg; eauto.
    + eapply line_port_nonneg; eauto.
  - intros ss entries e. unfold scan_linux. simpl.
    destruct (scan_output (linux_line "TCP") (ss "-tlnp") []) as [es1|] eqn:H1;
      [|done].
    simpl. intros H2 He.
    destruct (scan_output_elem _ _ _ _ _ H2 He) as [He1 | [l Hl]].
    + destruct (scan_output_elem _ _ _ _ _ H1 He1) as [Hnil | [l Hl]].
      * by apply elem_of_nil in Hnil.
      * eapply line_port_nonneg; eauto.
    + eapply line_port_nonneg; eauto.
Qed.

Lemma normalized_port_witness :
  0 ≤ port (Entry "TCP" 22 "-" "-")
  ∧ ∃ ds, ends_in_port (nth 3 (split "LISTEN 0 128 0.0.0.0:22 0.0.0.0:*") EmptyString) ds
          ∧ port (Entry "TCP" 22 "-" "-") = digits_value ds.
Proof.
  destruct (normalized_port "TCP" "LISTEN 0 128 0.0.0.0:22 0.0.0.0:*")
    as (_ & Hlinux & _).
  apply Hlinux. reflexivity.
Defined.

(** C6.  The scenario of the [lsof] path.  The three dots of the scenario
    line stand for the columns of an [lsof] row that lie between the pid
    and the name field (user, descriptor, type, device, size, node): the
    line has at least nine columns, of which the first is node, the second
    1234 and the ninth *:8080.  For any header line followed by such a
    line, the TCP loop of [scan_macos] gives exactly one entry: protocol
    TCP, port 8080, pid 1234, process name node. *)
Theorem macos_scenario (header line : string) :
  let cols := split line in
  (9 ≤ length cols)%nat →
  nth 0 cols EmptyString = "node" →
  nth 1 cols EmptyString = "1234" →
  nth 8 cols EmptyString = "*:8080" →
  scan_lines (macos_line "TCP") (drop 1 [header; line]) []
  = Ok [Entry "TCP" 8080 "1234" "node"].
Proof.
  intros cols Hlen H0 H1 H8. simpl. unfold macos_line. fold cols.
  apply Nat.ltb_ge in Hlen. rewrite Hlen, H0, H1, H8. reflexivity.
Qed.

Lemma macos_scenario_witness :
  scan_lines (macos_line "TCP")
    (drop 1 ["COMMAND PID USER FD TYPE DEVICE SIZE/OFF NODE NAME";
             "node 1234 dev 22u IPv4 0x1f 0t0 TCP *:8080 (LISTEN)"]) []
  = Ok [Entry "TCP" 8080 "1234" "node"].
Proof.
  apply (macos_scenario "COMMAND PID USER FD TYPE DEVICE SIZE/OFF NODE NAME"
           "node 1234 dev 22u IPv4 0x1f 0t0 TCP *:8080 (LISTEN)").
  - vm_compute. lia.
  - reflexivity.
  - reflexivity.
  - reflexivity.
Defined.

(** The same scenario through [scan_macos] itself, on the text that
    [lsof] printed; and the guard of the loop: a row that splits into
    fewer than nine columns gives no entry. *)
Example macos_scenario_listing :
  scan_macos
    (Some ("COMMAND PID USER FD TYPE DEVICE SIZE/OFF NODE NAME" +:+ nl
           +:+ "node 1234 dev 22u IPv4 0x1f 0t0 TCP *:8080 (LISTEN)" +:+ nl))
    None
  = Ok [Entry "TCP" 8080 "1234" "node"]
  ∧ macos_line "TCP" "node 1234 dev 22u IPv4 *:8080 (LISTEN)" = Ok None.
Proof. split; by vm_compute. Qed.

(** C7 as stated fails on the [lsof] path: the line below has a port and no
    process annotation in any column, yet its entry carries the pid and the
    process name of its first two columns, not the sentinel. *)
Lemma macos_line_names_process :
  let line := "node 1234 dev 22u IPv4 0x1f 0t0 TCP *:8080 (LISTEN)" in
  Forall (λ col, search_proc col = None) (split line)
  ∧ ends_in_port (nth 8 (split line) EmptyString) "8080"
  ∧ macos_line "TCP" line = Ok (Some (Entry "TCP" 8080 "1234" "node"))
  ∧ pid (Entry "TCP" 8080 "1234" "node") ≠ "-"
  ∧ process (Entry "TCP" 8080 "1234" "node") ≠ "-".
Proof.
  split; [vm_compute; repeat constructor|].
  split; [|repeat split; by vm_compute].
  split; [reflexivity|]. split; [discriminate|]. by exists "*".
Qed.

(** C7, amended.  In [scan_linux], a line of at least five columns whose
    fourth column ends in a colon and a port (decimal digits, no more than
    [int()] accepts), and none of whose columns carries the process
    annotation, gives an entry for that port with pid and process name
    both set to the sentinel.  In [scan_macos] no annotation is looked
    for: a line of at least nine columns whose ninth ends in a colon and a
    port gives an entry whose process name and pid are its first two
    columns. *)
Theorem port_without_annotation (tag line ds : string) :
  let cols := split line in
  Z.of_nat (String.length ds) ≤ int_max_str_digits →
  ((5 ≤ length cols)%nat →
   ends_in_port (nth 3 cols EmptyString) ds →
   (∀ col, col ∈ cols → search_proc col = None) →
   linux_line tag line
   = Ok (Some {| proto := tag; port := digits_value ds;
                 pid := "-"; process := "-" |}))
  ∧ ((9 ≤ length cols)%nat →
     ends_in_port (nth 8 cols EmptyString) ds →
     macos_line tag line
     = Ok (Some {| proto := tag; port := digits_value ds;
                   pid := nth 1 cols EmptyString;
                   process := nth 0 cols EmptyString |})).
Proof.
  intros cols Hlen. subst cols.
  assert (Hp : ∀ field, ends_in_port field ds → py_int ds = Ok (digits_value ds)).
  { intros field (Hds & Hne & _). rewrite py_int_digits by done.
    by apply Z.leb_le in Hlen as ->. }
  split.
  - intros Hcols Hfield Hnone. unfold linux_line.
    apply Nat.ltb_ge in Hcols. rewrite Hcols.
    rewrite (proj2 (search_port_field _ ds (nth_no_space line 3)) Hfield).
    rewrite (Hp _ Hfield). simpl. by rewrite find_proc_none.
  - intros Hcols Hfield. unfold macos_line.
    apply Nat.ltb_ge in Hcols. rewrite Hcols.
    rewrite (proj2 (search_port_field _ ds (nth_no_space line 8)) Hfield).
    by rewrite (Hp _ Hfield).
Qed.

Lemma port_without_annotation_witness :
  linux_line "UDP" "UNCONN 0 0 127.0.0.53:53 0.0.0.0:*"
  = Ok (Some {| proto := "UDP"; port := 53; pid := "-"; process := "-" |}).
Proof.
  destruct (port_without_annotation "UDP" "UNCONN 0 0 127.0.0.53:53 0.0.0.0:*" "53")
    as [Hlinux _].
  - vm_compute. discriminate.
  - apply Hlinux.
    + vm_compute. lia.
    + split; [reflexivity|]. split; [discriminate|]. by exists "127.0.0.53".
    + intros col Hcol. vm_compute in Hcol.
      repeat (apply elem_of_cons in Hcol as [-> | Hcol]; [reflexivity|]).
      by apply elem_of_nil in Hcol.
Defined.

(** ** Structured rendering *)

Section Rendering.

Lemma encode_entry (e : entry) : encode 2 2 (entry_json e) = json_entry e.
Proof.
  unfold entry_json, json_entry, json_key, encode, encode_str. cbn [map String.concat].
  rewrite !append_assoc. reflexivity.
Qed.

Lemma encode_entries (es : list entry) :
  map (encode 2 2) (map entry_json es) = json_entry <$> es.
Proof.
  induction es as [|e es IH]; [done|].
  cbn [map fmap list_fmap]. rewrite encode_entry. f_equal. exact IH.
Qed.

Lemma encode_ports (es : list entry) :
  encode 2 1 (JList (map entry_json es)) = json_ports es.
Proof.
  destruct es as [|e es]; [done|].
  change (encode 2 1 (JList (map entry_json (e :: es))))
    with ("[" +:+ newline_indent 2 2
          +:+ String.concat ("," +:+ newline_indent 2 2)
                (map (encode 2 2) (map entry_json (e :: es)))
          +:+ newline_indent 2 1 +:+ "]").
  rewrite encode_entries. unfold json_ports.
  rewrite ?append_assoc. reflexivity.
Qed.

End Rendering.

(** C5.  For every entry list, [format_json] emits the document of the
    structured mode: a single top-level key [ports] whose value is the
    array of the entries in their order; each entry is an object of its
    four fields (protocol under the key [proto], port, pid, process name
    under the key [process]); the nesting levels are indented by 2, 4
    and 6 spaces. *)
Theorem format_json_document (entries : list entry) :
  format_json entries = json_document entries.
Proof.
  unfold format_json, json_document.
  change (encode 2 0 (JDict [("ports", JList (map entry_json entries))]))
    with ("{" +:+ newline_indent 2 1
          +:+ String.concat ("," +:+ newline_indent 2 1)
                [encode_str "ports" +:+ ": "
                 +:+ encode 2 1 (JList (map entry_json entries))]
          +:+ newline_indent 2 0 +:+ "}").
  rewrite encode_ports. unfold json_key, encode_str. cbn [String.concat].
  rewrite !append_assoc. reflexivity.
Qed.

Example format_json_empty :
  format_json [] = "{" +:+ nl +:+ "  " +:+ quote +:+ "ports" +:+ quote +:+ ": []"
                   +:+ nl +:+ "}".
Proof. by vm_compute. Qed.

Example format_json_one :
  format_json [web]
  = String.concat nl
      ["{";
       "  " +:+ quote +:+ "ports" +:+ quote +:+ ": [";
       "    {";
       "      " +:+ quote +:+ "proto" +:+ quote +:+ ": " +:+ quote +:+ "TCP" +:+ quote +:+ ",";
       "      " +:+ quote +:+ "port" +:+ quote +:+ ": 8080,";
       "      " +:+ quote +:+ "pid" +:+ quote +:+ ": " +:+ quote +:+ "1234" +:+ quote +:+ ",";
       "      " +:+ quote +:+ "process" +:+ quote +:+ ": " +:+ quote +:+ "node" +:+ quote;
       "    }";
       "  ]";
       "}"].
Proof. by vm_compute. Qed.

(** * Further properties of the pipeline *)

(** ** [filter_ports]: what it keeps, and in which order *)

Section FilterMore.

Implicit Types (e x : entry) (es l : list entry) (opts : options).
Implicit Types (seen : gset (string * Z * string)).

Lemma dedupe_first seen es e :
  e ∈ dedupe seen es
  ↔ ∃ l1 l2, es = l1 ++ e :: l2 ∧ (key e ∉ seen) ∧ key e ∉ (key <$> l1).
Proof.
  split.
  - revert seen. induction es as [|x es IH]; intros seen; simpl.
    { intros []%elem_of_nil. }
    case_decide as Hx.
    + intros Hin. destruct (IH _ Hin) as (l1 & l2 & -> & Hs & Hl1).
      exists (x :: l1), l2. split; [done|]. split; [done|].
      rewrite fmap_cons, not_elem_of_cons. split; [congruence | done].
    + intros Hin. apply elem_of_cons in Hin as [-> | Hin].
      * exists [], es. split; [done|]. split; [done|]. apply not_elem_of_nil.
      * destruct (IH _ Hin) as (l1 & l2 & -> & Hs & Hl1).
        apply not_elem_of_union in Hs as [Hne Hs].
        apply not_elem_of_singleton in Hne.
        exists (x :: l1), l2. split; [done|]. split; [done|].
        rewrite fmap_cons, not_elem_of_cons. by split.
  - intros (l1 & l2 & -> & Hs & Hl1). revert seen Hs.
    induction l1 as [|x l1 IH]; intros seen Hs; simpl.
    + rewrite decide_False by done. apply list_elem_of_here.
    + rewrite fmap_cons, not_elem_of_cons in Hl1. destruct Hl1 as [Hne Hl1].
      case_decide as Hx; [by apply IH|].
      apply list_elem_of_further, IH; [done|].
      apply not_elem_of_union. by rewrite not_elem_of_singleton.
Qed.

Lemma dedupe_id seen l :
  NoDup (key <$> l) → (∀ e, e ∈ l → key e ∉ seen) → dedupe seen l = l.
Proof.
  revert seen. induction l as [|x l IH]; intros seen Hnd Hseen; simpl; [done|].
  rewrite fmap_cons in Hnd. apply NoDup_cons in Hnd as [Hx Hnd].
  rewrite decide_False by (apply Hseen, list_elem_of_here).
  f_equal. apply IH; [done|]. intros e He.
  apply not_elem_of_union. split.
  - apply not_elem_of_singleton. intros Heq. apply Hx. rewrite <- Heq.
    by apply list_elem_of_fmap_2.
  - by apply Hseen, list_elem_of_further.
Qed.

Lemma tuple_lt_not_le x y :
  tuple_lt (sort_key y) (sort_key x) = true → ¬ entry_le x y.
Proof.
  unfold tuple_lt, entry_le, sort_key, String.le; simpl.
  destruct (port y =? port x) eqn:Hp.
  - apply Z.eqb_eq in Hp. intros Hlt [? | [_ Hle]]; [lia|].
    unfold String.ltb in Hlt. unfold String.leb in Hle.
    rewrite String.compare_antisym in Hle.
    by destruct (proto y ?= proto x)%string.
  - intros ?%Z.ltb_lt [? | [? _]]; lia.
Qed.

Lemma insert_entry_head x l :
  Forall (entry_le x) l → insert_entry x l = x :: l.
Proof.
  destruct 1 as [|y l Hxy _]; simpl; [done|].
  destruct (tuple_lt _ _) eqn:Hlt; [|done].
  by apply tuple_lt_not_le in Hlt.
Qed.

Lemma sort_entries_id l : StronglySorted entry_le l → sort_entries l = l.
Proof.
  induction 1 as [|x l _ IH Hx]; simpl; [done|].
  rewrite IH. by apply insert_entry_head.
Qed.

Lemma filter_all {A} (P : A → Prop) `{!∀ a, Decision (P a)} (l : list A) :
  Forall P l → filter P l = l.
Proof.
  induction 1 as [|a l Ha _ IH]; [done|].
  by rewrite filter_cons_True, IH.
Qed.

Lemma range_filter_id l opts :
  (∀ e, e ∈ l → e ∈ range_filter l opts) → range_filter l opts = l.
Proof.
  unfold range_filter.
  destruct (range_start opts) as [lo|], (range_end opts) as [hi|]; try done.
  intros Hall. apply filter_all, Forall_forall. intros e He.
  by apply Hall, list_elem_of_filter in He as [? _].
Qed.

Lemma range_filter_elem es opts e :
  e ∈ range_filter (range_filter es opts) opts ↔ e ∈ range_filter es opts.
Proof.
  unfold range_filter.
  destruct (range_start opts) as [lo|], (range_end opts) as [hi|]; try done.
  rewrite !list_elem_of_filter. tauto.
Qed.

Lemma range_filter_perm es es' opts :
  es ≡ₚ es' → range_filter es opts ≡ₚ range_filter es' opts.
Proof.
  intros Hp. unfold range_filter.
  destruct (range_start opts) as [lo|], (range_end opts) as [hi|]; try done.
  by rewrite Hp.
Qed.

Lemma dedupe_keys es k :
  k ∈ key <$> dedupe ∅ es ↔ k ∈ key <$> es.
Proof.
  rewrite !list_elem_of_fmap. split.
  - intros (e & -> & He). apply dedupe_elem in He as [He _]. by exists e.
  - intros (e & -> & He).
    destruct (dedupe_complete ∅ es e He) as (e' & He' & Hk).
    { apply not_elem_of_empty. }
    by exists e'.
Qed.

End FilterMore.

(** X1.  Filtering twice with the same options changes nothing: the
    result of [filter_ports] is already in range, free of duplicate keys
    and sorted. *)
Theorem filter_ports_idempotent (es : list entry) (opts : options) :
  filter_ports (filter_ports es opts) opts = filter_ports es opts.
Proof.
  assert (Hin : ∀ e, e ∈ filter_ports es opts → e ∈ range_filter es opts).
  { intros e He. by apply filter_ports_elem, dedupe_elem in He as [? _]. }
  unfold filter_ports at 1.
  rewrite range_filter_id.
  - rewrite dedupe_id.
    + apply sort_entries_id, sort_entries_sorted.
    + unfold filter_ports. rewrite sort_entries_perm. apply dedupe_keys_NoDup.
    + intros e _. apply not_elem_of_empty.
  - intros e He. pose proof (Hin e He) as Hr.
    unfold range_filter in *.
    destruct (range_start opts) as [lo|], (range_end opts) as [hi|]; try done.
    apply list_elem_of_filter in Hr as [Hr _]. by apply list_elem_of_filter.
Qed.

(** X2.  Of the entries that share a key (protocol, port, pid),
    [filter_ports] keeps the one that comes first in the input: an entry is
    in the result exactly when it occurs among the in-range entries with no
    entry of the same key before it. *)
Theorem filter_ports_keeps_first (es : list entry) (opts : options) (e : entry) :
  e ∈ filter_ports es opts
  ↔ ∃ l1 l2, range_filter es opts = l1 ++ e :: l2 ∧ key e ∉ (key <$> l1).
Proof.
  rewrite filter_ports_elem, dedupe_first. split.
  - intros (l1 & l2 & ? & _ & ?). by exists l1, l2.
  - intros (l1 & l2 & ? & ?). exists l1, l2.
    split; [done|]. split; [apply not_elem_of_empty | done].
Qed.

Lemma filter_ports_keeps_first_witness :
  tls_a ∈ filter_ports [tls_a; tls_b] default_opts.
Proof.
  apply (filter_ports_keeps_first [tls_a; tls_b] default_opts tls_a).
  exists [], [tls_b]. split; [reflexivity | apply not_elem_of_nil].
Defined.

(** X3.  The sort of [filter_ports] is stable, and this fixes its result:
    it is sorted by (port, protocol), it lists the entries of each
    (port, protocol) pair in the order in which the de-duplication kept
    them, and it is the only list with these two properties. *)
Theorem filter_ports_stable (es : list entry) (opts : options) :
  let kept := dedupe ∅ (range_filter es opts) in
  StronglySorted entry_le (filter_ports es opts)
  ∧ (∀ k, filter (λ x, sort_key x = k) (filter_ports es opts)
          = filter (λ x, sort_key x = k) kept)
  ∧ (∀ l, StronglySorted entry_le l →
          (∀ k, filter (λ x, sort_key x = k) l = filter (λ x, sort_key x = k) kept) →
          l = filter_ports es opts).
Proof.
  intros kept. split; [apply sort_entries_sorted|]. split.
  - intros k. apply sort_entries_stable.
  - intros l Hs Hf. by apply stable_sort_unique.
Qed.

Lemma filter_ports_stable_witness :
  [dns_tcp; web] = filter_ports [web; dns_tcp] default_opts.
Proof.
  destruct (filter_ports_stable [web; dns_tcp] default_opts) as (_ & _ & Huniq).
  apply Huniq.
  - repeat constructor.
  - intros k.
    change (dedupe ∅ (range_filter [web; dns_tcp] default_opts))
      with [web; dns_tcp].
    rewrite !filter_cons, !filter_nil.
    destruct (decide (sort_key dns_tcp = k)) as [Hd|?];
      destruct (decide (sort_key web = k)) as [Hw|?]; try done.
    rewrite <- Hw in Hd. discriminate Hd.
Defined.

(** X4.  The bounds of a range are not compared with each other: a range
    whose lower bound exceeds its upper bound is accepted and selects
    nothing. *)
Theorem filter_ports_inverted_range (es : list entry) (fmt : string) (lo hi : Z) :
  hi < lo →
  filter_ports es {| format := fmt; range_start := Some lo; range_end := Some hi |}
  = [].
Proof.
  intros Hlt.
  destruct (filter_ports es _) as [|e l] eqn:Hres; [done|].
  assert (He : e ∈ filter_ports es
                 {| format := fmt; range_start := Some lo; range_end := Some hi |})
    by (rewrite Hres; apply list_elem_of_here).
  apply filter_ports_elem, dedupe_elem in He as [He _].
  unfold range_filter in He; simpl in He.
  apply list_elem_of_filter in He as [? _]. lia.
Qed.

Lemma filter_ports_inverted_range_witness :
  filter_ports [web; dns_udp; dns_tcp]
    {| format := "text"; range_start := Some 9000; range_end := Some 3000 |} = [].
Proof. apply filter_ports_inverted_range. lia. Defined.

(** X5.  The sockets reported do not depend on the order of the input:
    for two inputs that are permutations of each other, the keys
    (protocol, port, pid) of the two results are the same up to order; in
    particular the results have the same length. *)
Theorem filter_ports_keys_perm (es es' : list entry) (opts : options) :
  es ≡ₚ es' →
  key <$> filter_ports es opts ≡ₚ key <$> filter_ports es' opts
  ∧ length (filter_ports es opts) = length (filter_ports es' opts).
Proof.
  intros Hp.
  assert (Hk : key <$> filter_ports es opts ≡ₚ key <$> filter_ports es' opts).
  { unfold filter_ports. rewrite !sort_entries_perm.
    apply NoDup_Permutation; [apply dedupe_keys_NoDup..|].
    intros k. rewrite !dedupe_keys.
    by rewrite (range_filter_perm es es' opts Hp). }
  split; [done|]. apply Permutation_length in Hk. by rewrite !length_fmap in Hk.
Qed.

Lemma filter_ports_keys_perm_witness :
  key <$> filter_ports [tls_a; web; tls_b] default_opts
  ≡ₚ key <$> filter_ports [tls_b; tls_a; web] default_opts
  ∧ length (filter_ports [tls_a; web; tls_b] default_opts)
    = length (filter_ports [tls_b; tls_a; web] default_opts).
Proof.
  apply filter_ports_keys_perm.
  change [tls_a; web; tls_b] with ([tls_a; web] ++ [tls_b]).
  apply Permutation_app_comm.
Defined.

(** ** [parse_args]: outcomes and the options it builds *)

Section ParseMore.

Implicit Types (argv pre post rest : list string) (o : options) (v : string).

Lemma parse_loop_help rest o :
  parse_loop ("--help" :: rest) o = ([Stdout usage_text], Raise (SystemExit 0)).
Proof. reflexivity. Qed.

Lemma parse_loop_common rest o :
  parse_loop ("--common" :: rest) o = parse_loop rest (set_range o 1 1024).
Proof. reflexivity. Qed.

(** A refused [--range] value ends the parse whatever follows it. *)
Lemma parse_loop_range_none v rest o :
  range_value v = None →
  parse_loop ("--range" :: v :: rest) o = parse_loop ["--range"; v] o.
Proof.
  unfold range_value. intros Hv. simpl.
  destruct (split_on "-" v) as [|a [|b [|c l]]]; try done. simpl.
  destruct (py_int a) as [lo|]; [|done].
  destruct (py_int b) as [hi|]; done.
Qed.

Lemma parse_loop_format_ok v rest o :
  v = "text" ∨ v = "json" →
  parse_loop ("--format" :: v :: rest) o = parse_loop rest (set_format o v).
Proof. by intros [-> | ->]. Qed.

Lemma parse_loop_format_bad v rest o :
  v ≠ "text" → v ≠ "json" →
  parse_loop ("--format" :: v :: rest) o
  = ([Stderr "Error: --format must be text or json"], Raise (SystemExit 1)).
Proof.
  intros Ht Hj. simpl. apply String.eqb_neq in Ht, Hj. by rewrite Ht, Hj.
Qed.

Lemma parse_loop_unknown x rest o :
  ¬ is_flag x →
  parse_loop (x :: rest) o
  = ([Stderr ("Unknown option: " +:+ x)], Raise (SystemExit 1)).
Proof.
  intros Hx. unfold is_flag in Hx.
  assert (x ≠ "--help" ∧ x ≠ "--common" ∧ x ≠ "--range" ∧ x ≠ "--format")
    as (H1 & H2 & H3 & H4) by tauto.
  simpl. apply String.eqb_neq in H1, H2, H3, H4. by rewrite H1, H2, H3, H4.
Qed.

Lemma parse_loop_outcomes argv :
  ∀ o, (∃ o', parse_loop argv o = ([], Ok o'))
       ∨ parse_loop argv o = ([Stdout usage_text], Raise (SystemExit 0))
       ∨ usage_error (parse_loop argv o).
Proof.
  remember (length argv) as n eqn:Hn. revert argv Hn.
  induction n as [n IH] using lt_wf_ind. intros argv -> o.
  destruct argv as [|arg rest]; [left; by exists o|].
  destruct (parse_loop_cases arg rest o)
    as [(rest' & o' & Hstep) | [[-> Hh] | [_ Herr]]]; [|by right; left|by right; right].
  rewrite (parse_loop_step _ _ _ _ Hstep).
  by eapply IH; [apply (flag_step_length _ _ _ _ Hstep)|].
Qed.

Lemma split_on_no_sep c s : Forall (λ p, contains c p = false) (split_on c s).
Proof.
  induction s as [|c' s IH]; simpl; [by constructor|].
  destruct (Ascii.eqb c' c) eqn:Hc; [by constructor|].
  destruct IH as [|w ws Hw Hws]; constructor; simpl; try done.
  - by rewrite Hc.
  - by rewrite Hc, Hw.
Qed.

Lemma contains_int_lstrip c s :
  contains c s = false → contains c (int_lstrip s) = false.
Proof.
  induction s as [|x s IH]; simpl; [done|].
  intros Hc. destruct (is_int_space x); [|done].
  apply orb_false_elim in Hc as [_ Hc]. by apply IH.
Qed.

Lemma contains_int_rstrip c s :
  contains c s = false → contains c (int_rstrip s) = false.
Proof.
  induction s as [|x s IH]; simpl; [done|].
  intros [Hx Hc]%orb_false_elim.
  destruct (is_empty (int_rstrip s) && is_int_space x); [done|].
  simpl. by rewrite Hx, IH.
Qed.

Lemma scan_digits_nonneg s :
  ∀ prev ds, scan_digits prev s = Some ds → Forall (λ d, 0 ≤ d) ds.
Proof.
  induction s as [|c s IH]; intros prev ds; simpl.
  - destruct (Ascii.eqb prev "_"); [done|]. intros [= <-]. constructor.
  - destruct (Ascii.eqb c "_").
    + destruct (Ascii.eqb prev "_"); [done|]. apply IH.
    + destruct (is_digit c) eqn:Hc; [|done].
      destruct (scan_digits c s) as [ds'|] eqn:Hs; [|done].
      intros [= <-]. constructor; [by apply digit_val_nonneg | by eapply IH].
Qed.

Lemma int_body_nonneg s n : int_body s = Some n → 0 ≤ n.
Proof.
  unfold int_body. destruct s as [|c s]; [done|].
  destruct (Ascii.eqb c "_"); [done|].
  destruct (scan_digits c (String c s)) as [ds|] eqn:Hs; [|done].
  destruct (_ <=? _); [|done]. intros [= <-].
  by eapply decimal_nonneg, scan_digits_nonneg.
Qed.

(** A text without a minus sign is never read as a negative number. *)
Lemma py_int_nonneg s n : contains "-" s = false → py_int s = Ok n → 0 ≤ n.
Proof.
  intros Hs. unfold py_int.
  assert (Ht : contains "-" (int_strip s) = false)
    by by apply contains_int_rstrip, contains_int_lstrip.
  destruct (int_strip s) as [|c r]; [done|].
  simpl in Ht. apply orb_false_elim in Ht as [-> _].
  destruct (Ascii.eqb c "+").
  - destruct (int_body r) as [m|] eqn:Hm; [|done]. intros [= <-].
    apply int_body_nonneg in Hm. lia.
  - destruct (int_body (String c r)) as [m|] eqn:Hm; [|done]. intros [= <-].
    apply int_body_nonneg in Hm. lia.
Qed.

Lemma range_value_nonneg v lo hi :
  range_value v = Some (lo, hi) → 0 ≤ lo ∧ 0 ≤ hi.
Proof.
  unfold range_value. pose proof (split_on_no_sep "-" v) as Hparts.
  destruct (split_on "-" v) as [|a [|b [|c l]]]; try done.
  destruct (py_int a) as [lo'|] eqn:Ha; [|done].
  destruct (py_int b) as [hi'|] eqn:Hb; [|done]. intros [= <- <-].
  apply Forall_cons in Hparts as [Hna Hparts].
  apply Forall_cons in Hparts as [Hnb _].
  split; [by apply (py_int_nonneg a) | by apply (py_int_nonneg b)].
Qed.

Lemma flag_step_ok o argv rest o' :
  flag_step o argv rest o' → opts_ok o → opts_ok o'.
Proof.
  intros Hstep [Hf Hr]. destruct Hstep as [rest | v lo hi rest Hv | v rest Hv].
  - split; [done|]. right. exists 1, 1024. simpl. repeat split; lia.
  - split; [done|]. right. exists lo, hi.
    apply range_value_nonneg in Hv as [? ?]. by simpl.
  - by split.
Qed.

Lemma parse_loop_ok argv :
  ∀ o tr o', opts_ok o → parse_loop argv o = (tr, Ok o') → opts_ok o'.
Proof.
  remember (length argv) as n eqn:Hn. revert argv Hn.
  induction n as [n IH] using lt_wf_ind. intros argv -> o tr o' Ho Hp.
  destruct argv as [|arg rest].
  { change (([], Ok o) = (tr, Ok o')) in Hp. by simplify_eq. }
  destruct (parse_loop_cases arg rest o)
    as [(rest' & o1 & Hstep) | [[-> Hh] | [_ (tr' & e & Herr & _)]]];
    [|congruence..].
  rewrite (parse_loop_step _ _ _ _ Hstep) in Hp.
  eapply (IH _ (flag_step_length _ _ _ _ Hstep) _ eq_refl); [|done].
  by eapply flag_step_ok.
Qed.

Lemma common_is_range pre :
  ∀ post o,
    parse_loop (pre ++ "--common" :: post) o
    = parse_loop (pre ++ "--range" :: "1-1024" :: post) o.
Proof.
  remember (length pre) as n eqn:Hn. revert pre Hn.
  induction n as [n IH] using lt_wf_ind. intros pre -> post o.
  destruct pre as [|arg rest].
  { simpl app. rewrite parse_loop_common.
    by rewrite (parse_loop_range_ok "1-1024" 1 1024). }
  destruct (String.eqb_spec arg "--help") as [-> | Hhelp].
  { simpl app. by rewrite !parse_loop_help. }
  destruct (String.eqb_spec arg "--common") as [-> | Hcommon].
  { simpl app. rewrite !parse_loop_common. apply (IH (length rest)); simpl; [lia|done]. }
  destruct (String.eqb_spec arg "--range") as [-> | Hrange].
  { destruct rest as [|v rest]; [reflexivity|]. simpl app.
    destruct (range_value v) as [[lo hi]|] eqn:Hv.
    - rewrite !(parse_loop_range_ok v lo hi) by done.
      apply (IH (length rest)); simpl; [lia|done].
    - etrans; [by apply parse_loop_range_none|].
      symmetry. by apply parse_loop_range_none. }
  destruct (String.eqb_spec arg "--format") as [-> | Hformat].
  { destruct rest as [|v rest]; [reflexivity|]. simpl app.
    destruct (decide (v = "text" ∨ v = "json")) as [Hv | Hv].
    - rewrite !parse_loop_format_ok by done.
      apply (IH (length rest)); simpl; [lia|done].
    - rewrite !parse_loop_format_bad by tauto. done. }
  simpl app. rewrite !parse_loop_unknown; [done|..]; unfold is_flag; tauto.
Qed.

End ParseMore.

(** X6.  [parse_args] ends in one of three ways: it returns the options
    having printed nothing; it prints the usage text on standard output and
    exits with status 0 (a [--help] was reached); or it fails as a usage
    error - nothing on standard output, and a message on the error stream
    with [sys.exit(1)] or the [ValueError] of [int()]. *)
Theorem parse_args_outcomes (argv : list string) :
  (∃ o, parse_args argv = ([], Ok o))
  ∨ parse_args argv = ([Stdout usage_text], Raise (SystemExit 0))
  ∨ usage_error (parse_args argv).
Proof. apply parse_loop_outcomes. Qed.

(** X7.  The options a successful parse returns are well formed: the
    format is text or json, and the two bounds are both absent or both
    present; bounds given on the command line are never negative. *)
Theorem parse_args_opts_ok (argv : list string) (tr : list event) (o : options) :
  parse_args argv = (tr, Ok o) → opts_ok o.
Proof.
  apply parse_loop_ok. split; [by left | by left].
Qed.

Lemma parse_args_opts_ok_witness :
  opts_ok {| format := "json"; range_start := Some 3000; range_end := Some 9000 |}.
Proof.
  apply (parse_args_opts_ok ["--format"; "json"; "--range"; "3000-9000"] []).
  reflexivity.
Defined.

(** X8.  [--common] is a shorthand for [--range 1-1024]: replacing one by
    the other anywhere in the arguments changes neither the result of the
    parse nor what it prints. *)
Theorem common_is_range_1_1024 (pre post : list string) :
  parse_args (pre ++ "--common" :: post)
  = parse_args (pre ++ "--range" :: "1-1024" :: post).
Proof. apply common_is_range. Qed.

(** X9.  After arguments that parse without error, [--help] prints the
    usage text on standard output and exits with status 0; what follows it
    is not read. *)
Theorem help_after_flags (pre rest : list string) (o : options) :
  parse_args pre = ([], Ok o) →
  parse_args (pre ++ "--help" :: rest) = ([Stdout usage_text], Raise (SystemExit 0))
  ∧ ∀ h, run (main (pre ++ "--help" :: rest) h)
         = {| exit_status := 0; stdout := [usage_text]; stderr := [];
              traceback := None |}.
Proof.
  intros Hpre.
  assert (Hp : parse_args (pre ++ "--help" :: rest)
               = ([Stdout usage_text], Raise (SystemExit 0))).
  { unfold parse_args in *.
    by destruct (parse_loop_app pre _ _ _ ("--help" :: rest) Hpre) as [_ ->]. }
  split; [done|]. intros h. unfold main. by rewrite Hp.
Qed.

Lemma help_after_flags_witness :
  parse_args (["--common"; "--format"; "json"] ++ "--help" :: ["--bogus"])
  = ([Stdout usage_text], Raise (SystemExit 0)).
Proof.
  destruct (help_after_flags ["--common"; "--format"; "json"] ["--bogus"]
              {| format := "json"; range_start := Some 1; range_end := Some 1024 |})
    as [H _]; [reflexivity | exact H].
Defined.

(** X10.  After arguments that parse without error, each of the
    following ends the parse with [sys.exit(1)] and its own message on the
    error stream, whatever comes after: [--range] or [--format] as the last
    argument, [--format] with a value other than text and json, and an
    argument that is not one of the four flags. *)
Theorem usage_errors_after_flags (pre : list string) (o : options) :
  parse_args pre = ([], Ok o) →
  parse_args (pre ++ ["--range"])
  = ([Stderr "Error: --range requires START-END argument"], Raise (SystemExit 1))
  ∧ parse_args (pre ++ ["--format"])
    = ([Stderr "Error: --format requires text|json argument"], Raise (SystemExit 1))
  ∧ (∀ f rest, f ≠ "text" → f ≠ "json" →
       parse_args (pre ++ "--format" :: f :: rest)
       = ([Stderr "Error: --format must be text or json"], Raise (SystemExit 1)))
  ∧ (∀ x rest, ¬ is_flag x →
       parse_args (pre ++ x :: rest)
       = ([Stderr ("Unknown option: " +:+ x)], Raise (SystemExit 1))).
Proof.
  intros Hpre. unfold parse_args in *.
  split; [|split; [|split]].
  - by destruct (parse_loop_app pre _ _ _ ["--range"] Hpre) as [_ ->].
  - by destruct (parse_loop_app pre _ _ _ ["--format"] Hpre) as [_ ->].
  - intros f rest Ht Hj.
    destruct (parse_loop_app pre _ _ _ ("--format" :: f :: rest) Hpre) as [_ ->].
    by apply parse_loop_format_bad.
  - intros x rest Hx.
    destruct (parse_loop_app pre _ _ _ (x :: rest) Hpre) as [_ ->].
    by apply parse_loop_unknown.
Qed.

Lemma usage_errors_after_flags_witness :
  parse_args (["--common"] ++ "--verbose" :: ["--format"; "json"])
  = ([Stderr "Unknown option: --verbose"], Raise (SystemExit 1)).
Proof.
  destruct (usage_errors_after_flags ["--common"]
              {| format := "text"; range_start := Some 1; range_end := Some 1024 |})
    as (_ & _ & _ & H); [reflexivity|].
  apply H. unfold is_flag. intros [H1 | [H1 | [H1 | H1]]]; discriminate H1.
Defined.

(** ** The scanners: shape, order and number of the entries *)

Section TextMore.

Implicit Types (s w ds : string) (c : ascii).

Lemma length_append s1 s2 :
  String.length (s1 +:+ s2) = (String.length s1 + String.length s2)%nat.
Proof.
  induction s1 as [|c s1 IH]; [done|].
  change (S (String.length (s1 +:+ s2))
          = S (String.length s1 + String.length s2)).
  by rewrite IH.
Qed.

Lemma split_go_length s w ws :
  split_go s = (w, ws) →
  (String.length w ≤ String.length s)%nat
  ∧ Forall (λ x, (String.length x ≤ String.length s)%nat) ws.
Proof.
  revert w ws. induction s as [|c s IH]; intros w ws; simpl.
  - intros [= <- <-]. by split.
  - destruct (split_go s) as [w' ws']. destruct (IH _ _ eq_refl) as [Hw' Hws'].
    assert (Hws : Forall (λ x, (String.length x ≤ S (String.length s))%nat) ws').
    { eapply Forall_impl; [exact Hws'|]. simpl. lia. }
    destruct (is_space c); intros [= <- <-].
    + split; [simpl; lia|]. unfold push_word. destruct (is_empty w'); [done|].
      constructor; [lia | done].
    + split; [simpl; lia | done].
Qed.

Lemma split_length s :
  Forall (λ x, (String.length x ≤ String.length s)%nat) (split s).
Proof.
  unfold split. destruct (split_go s) as [w ws] eqn:Hs.
  apply split_go_length in Hs as [Hw Hws].
  unfold push_word. destruct (is_empty w); [done | by constructor].
Qed.

Lemma nth_length s (i : nat) :
  (String.length (nth i (split s) EmptyString) ≤ String.length s)%nat.
Proof.
  pose proof (split_length s) as Hall. revert i.
  induction Hall as [|w ws Hw _ IH]; intros [|i]; simpl; auto; lia.
Qed.

Lemma split_go_nonempty s w ws :
  split_go s = (w, ws) → Forall (λ x, x ≠ EmptyString) ws.
Proof.
  revert w ws. induction s as [|c s IH]; intros w ws; simpl.
  - by intros [= <- <-].
  - destruct (split_go s) as [w' ws']. pose proof (IH _ _ eq_refl) as Hws'.
    destruct (is_space c); intros [= <- <-]; [|done].
    unfold push_word. destruct w'; [done | by constructor].
Qed.

(** No column of a line is empty. *)
Lemma split_nonempty s : Forall (λ x, x ≠ EmptyString) (split s).
Proof.
  unfold split. destruct (split_go s) as [w ws] eqn:Hs.
  apply split_go_nonempty in Hs.
  unfold push_word. destruct w; [done | by constructor].
Qed.

Lemma nth_nonempty s (i : nat) :
  (i < length (split s))%nat → nth i (split s) EmptyString ≠ EmptyString.
Proof.
  pose proof (split_nonempty s) as Hall. revert i.
  induction Hall as [|w ws Hw _ IH]; intros [|i]; simpl; try lia; [done|].
  intros ?. apply IH. lia.
Qed.

Lemma search_port_length s ds :
  search_port s = Some ds → (String.length ds < String.length s)%nat.
Proof.
  intros (_ & _ & pre & [-> | ->])%search_port_sound;
    rewrite !length_append; simpl; lia.
Qed.

Lemma strip_prefix_sound pre s r : strip_prefix pre s = Some r → s = pre +:+ r.
Proof.
  revert s. induction pre as [|a pre IH]; intros s; simpl.
  - by intros [= ->].
  - destruct s as [|b s]; [done|].
    destruct (Ascii.eqb_spec a b) as [-> | ?]; [|done].
    intros Hr. apply IH in Hr as ->. done.
Qed.

Lemma span_not_quote s a b :
  span (λ c, negb (Ascii.eqb c dquote)) s = (a, b) → contains dquote a = false.
Proof.
  revert a b. induction s as [|c s IH]; intros a b; simpl.
  - by intros [= <- <-].
  - destruct (Ascii.eqb c dquote) eqn:Hc; simpl; [by intros [= <- <-]|].
    destruct (span _ s) as [a' b']. intros [= <- <-].
    simpl. rewrite Hc. by eapply IH.
Qed.

Lemma proc_at_sound s name ds :
  proc_at s = Some (name, ds) →
  name ≠ EmptyString ∧ contains dquote name = false
  ∧ ds ≠ EmptyString ∧ all_digits ds = true
  ∧ ∃ post, s = annotation name ds +:+ post.
Proof.
  unfold proc_at. destruct s as [|c0 [|c1 r]]; try done.
  destruct (Ascii.eqb c0 "(") eqn:H0; cbn [andb]; [|done].
  destruct (Ascii.eqb c1 dquote) eqn:H1; [|done].
  apply Ascii.eqb_eq in H0, H1. subst c0 c1.
  destruct (span _ r) as [nm rest] eqn:Hname.
  destruct (is_empty nm) eqn:Hnm; [done|].
  destruct (strip_prefix _ rest) as [r2|] eqn:Hpre; [|done].
  destruct (span is_digit r2) as [digits post] eqn:Hds.
  destruct (is_empty digits) eqn:Hd; [done|]. intros [= <- <-].
  split; [by destruct nm|]. split; [by eapply span_not_quote|].
  split; [by destruct digits|]. split; [by eapply span_digits|].
  exists post. apply span_app in Hname as ->. apply span_app in Hds as ->.
  apply strip_prefix_sound in Hpre as ->.
  unfold annotation, quote. rewrite !append_assoc. reflexivity.
Qed.

Lemma search_proc_sound s name ds :
  search_proc s = Some (name, ds) →
  name ≠ EmptyString ∧ contains dquote name = false
  ∧ ds ≠ EmptyString ∧ all_digits ds = true
  ∧ ∃ pre post, s = pre +:+ annotation name ds +:+ post.
Proof.
  induction s as [|c s IH].
  - simpl. done.
  - cbn [search_proc]. destruct (proc_at (String c s)) as [[nm d]|] eqn:Hat.
    + intros [= -> ->]. apply proc_at_sound in Hat as (? & ? & ? & ? & post & Hs).
      do 4 (split; [done|]). exists EmptyString, post. by rewrite Hs.
    + intros (? & ? & ? & ? & pre & post & ->)%IH.
      do 4 (split; [done|]). by exists (String c pre), post.
Qed.

End TextMore.

Section ScanMore.

Implicit Types (tag line : string) (e : entry) (lines : list string).
Implicit Types (body : string → result (option entry)).

Lemma scan_lines_acc body lines :
  ∀ acc, scan_lines body lines acc
         = match scan_lines body lines [] with
           | Ok r => Ok (acc ++ r)
           | Raise ex => Raise ex
           end.
Proof.
  induction lines as [|line lines IH]; intros acc; simpl.
  - by rewrite app_nil_r.
  - destruct (body line) as [r|ex]; [|done]. simpl.
    rewrite (IH (acc ++ option_list r)), (IH (option_list r)).
    destruct (scan_lines body lines []); [|done]. by rewrite app_assoc.
Qed.

Lemma scan_output_acc body out acc :
  scan_output body out acc
  = match scan_output body out [] with
    | Ok r => Ok (acc ++ r)
    | Raise ex => Raise ex
    end.
Proof.
  destruct out as [stdout|]; simpl; [apply scan_lines_acc | by rewrite app_nil_r].
Qed.

Lemma scan_lines_length body lines :
  ∀ acc res, scan_lines body lines acc = Ok res →
             (length res ≤ length acc + length lines)%nat.
Proof.
  induction lines as [|line lines IH]; intros acc res; simpl.
  - intros [= <-]. lia.
  - destruct (body line) as [r|ex]; [|done]. simpl. intros Hres.
    apply IH in Hres. rewrite length_app in Hres.
    destruct r; simpl in Hres; lia.
Qed.

Lemma scan_output_length body out res :
  scan_output body out [] = Ok res → (length res ≤ length (lines_of out))%nat.
Proof.
  destruct out as [stdout|]; simpl.
  - intros Hres. by apply scan_lines_length in Hres.
  - by intros [= <-].
Qed.

Lemma scan_lines_total body lines :
  (∀ line, line ∈ lines → ∃ r, body line = Ok r) →
  ∀ acc, ∃ res, scan_lines body lines acc = Ok res.
Proof.
  induction lines as [|line lines IH]; intros Hall acc; simpl; [by eexists|].
  destruct (Hall line) as [r ->]; [apply list_elem_of_here|]. simpl.
  apply IH. intros l Hl. by apply Hall, list_elem_of_further.
Qed.

Lemma scan_lines_raise body lines :
  ∀ acc ex, scan_lines body lines acc = Raise ex →
            ∃ line, line ∈ lines ∧ body line = Raise ex.
Proof.
  induction lines as [|line lines IH]; intros acc ex; simpl; [done|].
  destruct (body line) as [r|ex'] eqn:Hb; simpl.
  - intros (l & Hl & Hr)%IH. exists l. split; [by apply list_elem_of_further | done].
  - intros [= ->]. exists line. split; [apply list_elem_of_here | done].
Qed.

Lemma port_raise field ds ex :
  search_port field = Some ds → py_int ds = Raise ex →
  ex = ValueError ∧ int_max_str_digits < Z.of_nat (String.length field).
Proof.
  intros Hs Hp. split; [by eapply py_int_raise|].
  pose proof (search_port_length _ _ Hs) as Hlen.
  apply search_port_sound in Hs as (Hds & Hne & _).
  rewrite py_int_digits in Hp by done.
  destruct (_ <=? _) eqn:Hle; [done|]. apply Z.leb_gt in Hle. lia.
Qed.

(** A line makes the scan fail only through [int()], and only when it is
    longer than the number of digits [int()] accepts. *)
Lemma line_raise tag line ex :
  macos_line tag line = Raise ex ∨ linux_line tag line = Raise ex →
  ex = ValueError ∧ int_max_str_digits < Z.of_nat (String.length line).
Proof.
  intros [H | H].
  - unfold macos_line in H. destruct (_ <? _)%nat; [done|].
    destruct (search_port _) as [ds|] eqn:Hs; [|done].
    destruct (py_int ds) as [n|ex'] eqn:Hp; [done|]. simpl in H. simplify_eq.
    destruct (port_raise _ _ _ Hs Hp) as [-> Hlen]. split; [done|].
    pose proof (nth_length line 8). lia.
  - unfold linux_line in H. destruct (_ <? _)%nat; [done|].
    destruct (search_port _) as [ds|] eqn:Hs; [|done].
    destruct (py_int ds) as [n|ex'] eqn:Hp; simpl in H.
    { by destruct (find_proc _). }
    simplify_eq.
    destruct (port_raise _ _ _ Hs Hp) as [-> Hlen]. split; [done|].
    pose proof (nth_length line 3). lia.
Qed.

Lemma scan_output_raise body out acc ex :
  scan_output body out acc = Raise ex →
  ∃ line, line ∈ lines_of out ∧ body line = Raise ex.
Proof.
  destruct out as [stdout|]; simpl; [apply scan_lines_raise | done].
Qed.

Lemma find_proc_shape (cols : list string) :
  find_proc cols = (EmptyString, EmptyString)
  ∨ ∃ name ds, find_proc cols = (name, ds)
               ∧ name ≠ EmptyString ∧ contains dquote name = false
               ∧ ds ≠ EmptyString ∧ all_digits ds = true
               ∧ ∃ col pre post, col ∈ cols
                                 ∧ col = pre +:+ annotation name ds +:+ post.
Proof.
  induction cols as [|col cols IH]; simpl; [by left|].
  destruct (search_proc col) as [[name ds]|] eqn:Hs.
  - right. exists name, ds. split; [done|].
    apply search_proc_sound in Hs as (? & ? & ? & ? & pre & post & Hcol).
    do 4 (split; [done|]). exists col, pre, post. split; [apply list_elem_of_here | done].
  - destruct IH as [? | (name & ds & ? & ? & ? & ? & ? & c & pre & post & ? & ?)];
      [by left|].
    right. exists name, ds. do 5 (split; [done|]).
    exists c, pre, post. split; [by apply list_elem_of_further | done].
Qed.

Lemma scan_output_from body out res e :
  scan_output body out [] = Ok res → e ∈ res →
  ∃ line, line ∈ lines_of out ∧ body line = Ok (Some e).
Proof.
  destruct out as [stdout|]; simpl.
  - intros Hres He.
    destruct (scan_lines_elem _ _ _ _ _ Hres He) as [Hnil | ?]; [|done].
    by apply elem_of_nil in Hnil.
  - intros [= <-] Hnil. by apply elem_of_nil in Hnil.
Qed.

(** The two listings of a scan, one after the other. *)
Definition two_listings (b1 b2 : string → result (option entry))
    (o1 o2 : option string) : result (list entry) :=
  entries ← scan_output b1 o1 []; scan_output b2 o2 entries.

Lemma two_listings_eq b1 b2 o1 o2 :
  two_listings b1 b2 o1 o2
  = match scan_output b1 o1 [], scan_output b2 o2 [] with
    | Ok t, Ok u => Ok (t ++ u)
    | Ok _, Raise ex => Raise ex
    | Raise ex, _ => Raise ex
    end.
Proof.
  unfold two_listings. destruct (scan_output b1 o1 []) as [t|ex]; [|done].
  change (scan_output b2 o2 t = match scan_output b2 o2 [] with
                                | Ok u => Ok (t ++ u)
                                | Raise ex => Raise ex
                                end).
  apply scan_output_acc.
Qed.

Lemma scan_macos_listings tcp udp :
  scan_macos tcp udp = two_listings (macos_line "TCP") (macos_line "UDP") tcp udp.
Proof. reflexivity. Qed.

Lemma scan_linux_listings ss :
  scan_linux ss
  = two_listings (linux_line "TCP") (linux_line "UDP") (ss "-tlnp") (ss "-ulnp").
Proof. reflexivity. Qed.

Lemma two_listings_ok b1 b2 o1 o2 res :
  two_listings b1 b2 o1 o2 = Ok res →
  ∃ t u, res = t ++ u ∧ scan_output b1 o1 [] = Ok t ∧ scan_output b2 o2 [] = Ok u.
Proof.
  rewrite two_listings_eq.
  destruct (scan_output b1 o1 []) as [t|]; [|done].
  destruct (scan_output b2 o2 []) as [u|]; [|done].
  intros [= <-]. by exists t, u.
Qed.

Lemma two_listings_total b1 b2 o1 o2 :
  (∀ line, line ∈ lines_of o1 → ∃ r, b1 line = Ok r) →
  (∀ line, line ∈ lines_of o2 → ∃ r, b2 line = Ok r) →
  ∃ res, two_listings b1 b2 o1 o2 = Ok res.
Proof.
  intros H1 H2. rewrite two_listings_eq.
  assert (∃ t, scan_output b1 o1 [] = Ok t) as [t ->].
  { destruct o1; simpl; [by apply scan_lines_total | by eexists]. }
  assert (∃ u, scan_output b2 o2 [] = Ok u) as [u ->].
  { destruct o2; simpl; [by apply scan_lines_total | by eexists]. }
  by eexists.
Qed.

Lemma two_listings_raise b1 b2 o1 o2 ex :
  two_listings b1 b2 o1 o2 = Raise ex →
  ∃ line, (line ∈ lines_of o1 ∧ b1 line = Raise ex)
          ∨ (line ∈ lines_of o2 ∧ b2 line = Raise ex).
Proof.
  rewrite two_listings_eq.
  destruct (scan_output b1 o1 []) as [t|ex1] eqn:H1.
  - destruct (scan_output b2 o2 []) as [u|ex2] eqn:H2; [done|].
    intros [= ->]. apply scan_output_raise in H2 as (l & ? & ?).
    exists l. by right.
  - intros [= ->]. apply scan_output_raise in H1 as (l & ? & ?).
    exists l. by left.
Qed.

Lemma scan_lines_by_line body lines res :
  scan_lines body lines [] = Ok res → res = omap (line_entry body) lines.
Proof.
  revert res. induction lines as [|line lines IH]; intros res; simpl.
  - by intros [= <-].
  - unfold line_entry at 1. destruct (body line) as [r|ex]; [|done]. simpl.
    rewrite scan_lines_acc.
    destruct (scan_lines body lines []) as [t|] eqn:Ht; [|done].
    intros [= <-]. rewrite (IH t eq_refl). by destruct r.
Qed.

Lemma omap_line_entry_length body lines :
  (length (omap (line_entry body) lines) ≤ length lines)%nat.
Proof.
  unfold omap. induction lines as [|line lines IH]; simpl; [done|].
  destruct (line_entry body line); simpl; lia.
Qed.

Lemma line_total tag line :
  Z.of_nat (String.length line) ≤ int_max_str_digits →
  (∃ r, macos_line tag line = Ok r) ∧ (∃ r, linux_line tag line = Ok r).
Proof.
  intros Hlen. split.
  - destruct (macos_line tag line) as [r|ex] eqn:H; [by eexists|].
    destruct (line_raise tag line ex) as [_ ?]; [by left | lia].
  - destruct (linux_line tag line) as [r|ex] eqn:H; [by eexists|].
    destruct (line_raise tag line ex) as [_ ?]; [by right | lia].
Qed.

End ScanMore.

(** X11.  Every entry of [scan_macos] comes from a data line of one of the
    two [lsof] listings with at least nine columns: its protocol is TCP or
    UDP, and its process name and pid are the first and the second column
    of that line - not empty and without white space. *)
Theorem scan_macos_entries (tcp udp : option string) (entries : list entry)
    (e : entry) :
  scan_macos tcp udp = Ok entries → e ∈ entries →
  (proto e = "TCP" ∨ proto e = "UDP")
  ∧ pid e ≠ EmptyString ∧ process e ≠ EmptyString
  ∧ no_space (pid e) = true ∧ no_space (process e) = true
  ∧ ∃ line, line ∈ lines_of tcp ++ lines_of udp
            ∧ (9 ≤ length (split line))%nat
            ∧ process e = nth 0 (split line) EmptyString
            ∧ pid e = nth 1 (split line) EmptyString.
Proof.
  rewrite scan_macos_listings. intros (t & u & -> & Ht & Hu)%two_listings_ok He.
  assert (∃ tag line, (tag = "TCP" ∨ tag = "UDP")
                      ∧ line ∈ lines_of tcp ++ lines_of udp
                      ∧ macos_line tag line = Ok (Some e))
    as (tag & line & Htag & Hline & Hbody).
  { apply elem_of_app in He as [He | He].
    - destruct (scan_output_from _ _ _ _ Ht He) as (line & ? & ?).
      exists "TCP", line. split; [by left|]. split; [|done].
      apply elem_of_app. by left.
    - destruct (scan_output_from _ _ _ _ Hu He) as (line & ? & ?).
      exists "UDP", line. split; [by right|]. split; [|done].
      apply elem_of_app. by right. }
  apply macos_line_some in Hbody as (Hlen & ds & _ & _ & ->). simpl.
  split; [done|].
  split; [apply nth_nonempty; lia|]. split; [apply nth_nonempty; lia|].
  split; [apply nth_no_space|]. split; [apply nth_no_space|].
  by exists line.
Qed.

Lemma scan_macos_entries_witness :
  (proto web = "TCP" ∨ proto web = "UDP")
  ∧ pid web ≠ EmptyString ∧ process web ≠ EmptyString
  ∧ no_space (pid web) = true ∧ no_space (process web) = true.
Proof.
  destruct (scan_macos_entries
              (Some ("COMMAND PID USER FD TYPE DEVICE SIZE/OFF NODE NAME" +:+ nl
                     +:+ "node 1234 dev 22u IPv4 0x1f 0t0 TCP *:8080 (LISTEN)"))
              None [web] web) as (H1 & H2 & H3 & H4 & H5 & _).
  - reflexivity.
  - apply list_elem_of_here.
  - by repeat split.
Defined.

(** X12.  Every entry of [scan_linux] has protocol TCP or UDP.  Either
    its pid and process name are both the sentinel; or its pid is a
    non-empty string of digits and its process name is not empty and holds
    no double quote, the two being the groups of an annotation found in a
    column of a data line. *)
Theorem scan_linux_entries (ss : string → option string) (entries : list entry)
    (e : entry) :
  scan_linux ss = Ok entries → e ∈ entries →
  (proto e = "TCP" ∨ proto e = "UDP")
  ∧ ((pid e = "-" ∧ process e = "-")
     ∨ (pid e ≠ EmptyString ∧ all_digits (pid e) = true
        ∧ process e ≠ EmptyString ∧ contains dquote (process e) = false
        ∧ ∃ line col pre post,
            line ∈ lines_of (ss "-tlnp") ++ lines_of (ss "-ulnp")
            ∧ col ∈ split line
            ∧ col = pre +:+ annotation (process e) (pid e) +:+ post)).
Proof.
  rewrite scan_linux_listings. intros (t & u & -> & Ht & Hu)%two_listings_ok He.
  assert (∃ tag line, (tag = "TCP" ∨ tag = "UDP")
                      ∧ line ∈ lines_of (ss "-tlnp") ++ lines_of (ss "-ulnp")
                      ∧ linux_line tag line = Ok (Some e))
    as (tag & line & Htag & Hline & Hbody).
  { apply elem_of_app in He as [He | He].
    - destruct (scan_output_from _ _ _ _ Ht He) as (line & ? & ?).
      exists "TCP", line. split; [by left|]. split; [|done].
      apply elem_of_app. by left.
    - destruct (scan_output_from _ _ _ _ Hu He) as (line & ? & ?).
      exists "UDP", line. split; [by right|]. split; [|done].
      apply elem_of_app. by right. }
  apply linux_line_some in Hbody as (Hlen & ds & _ & _ & ->). simpl.
  split; [done|].
  destruct (find_proc_shape (split line))
    as [-> | (name & digits & -> & Hn & Hq & Hd & Hds & col & pre & post & Hc & Hcol)].
  - by left.
  - right. simpl.
    assert (or_dash digits = digits) as -> by by destruct digits.
    assert (or_dash name = name) as -> by by destruct name.
    do 4 (split; [done|]). by exists line, col, pre, post.
Qed.

Lemma scan_linux_entries_witness :
  (proto dns_udp = "TCP" ∨ proto dns_udp = "UDP")
  ∧ ((pid dns_udp = "-" ∧ process dns_udp = "-")
     ∨ (pid dns_udp ≠ EmptyString ∧ all_digits (pid dns_udp) = true)).
Proof.
  destruct (scan_linux_entries
              (λ flag, if String.eqb flag "-ulnp"
                       then Some ("State Recv-Q Send-Q Local Peer" +:+ nl
                                  +:+ "UNCONN 0 0 127.0.0.53:53 0.0.0.0:*")
                       else None)
              [dns_udp] dns_udp) as [H1 H2].
  - reflexivity.
  - apply list_elem_of_here.
  - split; [exact H1|]. destruct H2 as [H2 | (? & ? & _)]; [by left | by right].
Defined.

(** X13.  The result of a scan is what the TCP listing gives followed by
    what the UDP listing gives, and each part is what the scan would give
    if the other listing could not be obtained: a listing that is missing
    or timed out contributes nothing and does not disturb the other. *)
Theorem scan_listings_independent (tcp udp : option string)
    (ss : string → option string) (entries : list entry) :
  (scan_macos tcp udp = Ok entries →
   ∃ t u, entries = t ++ u
          ∧ scan_macos tcp None = Ok t ∧ scan_macos None udp = Ok u
          ∧ Forall (λ e, proto e = "TCP") t ∧ Forall (λ e, proto e = "UDP") u)
  ∧ (scan_linux ss = Ok entries →
     ∃ t u, entries = t ++ u
            ∧ scan_linux (λ flag, if String.eqb flag "-tlnp" then ss flag else None)
              = Ok t
            ∧ scan_linux (λ flag, if String.eqb flag "-ulnp" then ss flag else None)
              = Ok u
            ∧ Forall (λ e, proto e = "TCP") t ∧ Forall (λ e, proto e = "UDP") u).
Proof.
  split.
  - rewrite scan_macos_listings. intros (t & u & -> & Ht & Hu)%two_listings_ok.
    exists t, u. split; [done|].
    split; [by rewrite scan_macos_listings, two_listings_eq, Ht; simpl;
                 rewrite app_nil_r|].
    split; [by rewrite scan_macos_listings, two_listings_eq, Hu|].
    split.
    + apply Forall_forall. intros e He.
      destruct (scan_output_from _ _ _ _ Ht He) as (line & _ & Hb).
      by apply macos_line_some in Hb as (_ & ds & _ & _ & ->).
    + apply Forall_forall. intros e He.
      destruct (scan_output_from _ _ _ _ Hu He) as (line & _ & Hb).
      by apply macos_line_some in Hb as (_ & ds & _ & _ & ->).
  - rewrite scan_linux_listings. intros (t & u & -> & Ht & Hu)%two_listings_ok.
    exists t, u. split; [done|].
    split; [by rewrite scan_linux_listings, two_listings_eq; simpl String.eqb;
                 cbn iota; rewrite Ht; simpl; rewrite app_nil_r|].
    split; [by rewrite scan_linux_listings, two_listings_eq; simpl String.eqb;
                 cbn iota; rewrite Hu|].
    split.
    + apply Forall_forall. intros e He.
      destruct (scan_output_from _ _ _ _ Ht He) as (line & _ & Hb).
      by apply linux_line_some in Hb as (_ & ds & _ & _ & ->).
    + apply Forall_forall. intros e He.
      destruct (scan_output_from _ _ _ _ Hu He) as (line & _ & Hb).
      by apply linux_line_some in Hb as (_ & ds & _ & _ & ->).
Qed.

Lemma scan_listings_independent_witness :
  ∃ t u, [web] = t ++ u
         ∧ scan_macos (Some ("COMMAND PID USER FD TYPE DEVICE SIZE/OFF NODE NAME" +:+ nl
                   +:+ "node 1234 dev 22u IPv4 0x1f 0t0 TCP *:8080 (LISTEN)")) None
           = Ok t
         ∧ scan_macos None None = Ok u
         ∧ Forall (λ e, proto e = "TCP") t ∧ Forall (λ e, proto e = "UDP") u.
Proof.
  destruct (scan_listings_independent
              (Some ("COMMAND PID USER FD TYPE DEVICE SIZE/OFF NODE NAME" +:+ nl
                     +:+ "node 1234 dev 22u IPv4 0x1f 0t0 TCP *:8080 (LISTEN)"))
              None (λ _, None) [web]) as [Hmac _].
  apply Hmac. reflexivity.
Defined.

(** X14.  The entries of a scan follow the lines of its two listings.
    The first line of [stdout.strip().splitlines()], the header, is left
    out; each later line gives no entry or one, which depends on that
    line alone; and the entries stand in the order of their lines, those
    of the TCP listing before those of the UDP listing.  So a scan has at
    most as many entries as its listings have lines after the first. *)
Theorem scan_entries_by_line (tcp udp : string) (ss : string → option string)
    (entries : list entry) :
  let rows (text : string) := drop 1 (splitlines (strip text)) in
  (scan_macos (Some tcp) (Some udp) = Ok entries →
   entries = omap (line_entry (macos_line "TCP")) (rows tcp)
             ++ omap (line_entry (macos_line "UDP")) (rows udp)
   ∧ (length entries ≤ (length (splitlines (strip tcp)) - 1)
                       + (length (splitlines (strip udp)) - 1))%nat)
  ∧ (ss "-tlnp" = Some tcp → ss "-ulnp" = Some udp →
     scan_linux ss = Ok entries →
     entries = omap (line_entry (linux_line "TCP")) (rows tcp)
               ++ omap (line_entry (linux_line "UDP")) (rows udp)
     ∧ (length entries ≤ (length (splitlines (strip tcp)) - 1)
                         + (length (splitlines (strip udp)) - 1))%nat).
Proof.
  intros rows.
  assert (Hgen : ∀ b1 b2, two_listings b1 b2 (Some tcp) (Some udp) = Ok entries →
            entries = omap (line_entry b1) (rows tcp) ++ omap (line_entry b2) (rows udp)
            ∧ (length entries ≤ (length (splitlines (strip tcp)) - 1)
                                + (length (splitlines (strip udp)) - 1))%nat).
  { intros b1 b2 (t & u & -> & Ht & Hu)%two_listings_ok.
    apply scan_lines_by_line in Ht, Hu. subst t u.
    split; [done|]. rewrite length_app.
    pose proof (omap_line_entry_length b1 (data_lines tcp)) as H1.
    pose proof (omap_line_entry_length b2 (data_lines udp)) as H2.
    unfold data_lines in *. rewrite length_drop in H1, H2. lia. }
  split.
  - rewrite scan_macos_listings. apply Hgen.
  - intros Ht Hu. rewrite scan_linux_listings, Ht, Hu. apply Hgen.
Qed.

Lemma scan_entries_by_line_witness :
  [web]
  = omap (line_entry (macos_line "TCP"))
      (drop 1 (splitlines (strip
         ("COMMAND PID USER FD TYPE DEVICE SIZE/OFF NODE NAME" +:+ nl
          +:+ "node 1234 dev 22u IPv4 0x1f 0t0 TCP *:8080 (LISTEN)" +:+ nl
          +:+ "node 1234 dev 23u IPv4 0x20 0t0 TCP"))))
    ++ omap (line_entry (macos_line "UDP")) (drop 1 (splitlines (strip "COMMAND PID")))
  ∧ (length [web] ≤ (3 - 1) + (1 - 1))%nat.
Proof.
  destruct (scan_entries_by_line
              ("COMMAND PID USER FD TYPE DEVICE SIZE/OFF NODE NAME" +:+ nl
               +:+ "node 1234 dev 22u IPv4 0x1f 0t0 TCP *:8080 (LISTEN)" +:+ nl
               +:+ "node 1234 dev 23u IPv4 0x20 0t0 TCP")
              "COMMAND PID" (λ _, None) [web]) as [Hmac _].
  apply Hmac. reflexivity.
Defined.

(** X15.  The listings being in hand (each captured, or missing because
    the call of the utility raised one of the two exceptions the script
    catches), the line loops of a scan fail in one way only: with the
    [ValueError] of [int()], on a data line of more characters than
    [int()] accepts digits.  A scan whose data lines are all at most
    that long returns normally, whatever the lines hold. *)
Theorem scan_raises_only_on_long_lines (tcp udp : option string)
    (ss : string → option string) :
  (∀ ex, scan_macos tcp udp = Raise ex →
     ex = ValueError
     ∧ ∃ line, line ∈ lines_of tcp ++ lines_of udp
               ∧ int_max_str_digits < Z.of_nat (String.length line))
  ∧ (∀ ex, scan_linux ss = Raise ex →
       ex = ValueError
       ∧ ∃ line, line ∈ lines_of (ss "-tlnp") ++ lines_of (ss "-ulnp")
                 ∧ int_max_str_digits < Z.of_nat (String.length line))
  ∧ ((∀ line, line ∈ lines_of tcp ++ lines_of udp →
              Z.of_nat (String.length line) ≤ int_max_str_digits) →
     ∃ entries, scan_macos tcp udp = Ok entries)
  ∧ ((∀ line, line ∈ lines_of (ss "-tlnp") ++ lines_of (ss "-ulnp") →
              Z.of_nat (String.length line) ≤ int_max_str_digits) →
     ∃ entries, scan_linux ss = Ok entries).
Proof.
  split; [|split; [|split]].
  - intros ex H. rewrite scan_macos_listings in H.
    apply two_listings_raise in H as (line & [[Hl H] | [Hl H]]);
      destruct (line_raise _ line ex (or_introl H)) as [-> Hlen];
      (split; [done|]); exists line; (split; [|done]); apply elem_of_app;
      [by left | by right].
  - intros ex H. rewrite scan_linux_listings in H.
    apply two_listings_raise in H as (line & [[Hl H] | [Hl H]]);
      destruct (line_raise _ line ex (or_intror H)) as [-> Hlen];
      (split; [done|]); exists line; (split; [|done]); apply elem_of_app;
      [by left | by right].
  - intros Hall. rewrite scan_macos_listings.
    apply two_listings_total; intros line Hl; apply line_total, Hall, elem_of_app;
      [by left | by right].
  - intros Hall. rewrite scan_linux_listings.
    apply two_listings_total; intros line Hl; apply line_total, Hall, elem_of_app;
      [by left | by right].
Qed.

Lemma scan_raises_only_on_long_lines_witness :
  ∃ entries,
    scan_linux (λ flag, if String.eqb flag "-tlnp"
                        then Some ("State Recv-Q Send-Q Local Peer" +:+ nl
                                   +:+ "LISTEN 0 128 0.0.0.0:22 0.0.0.0:*")
                        else None)
    = Ok entries.
Proof.
  destruct (scan_raises_only_on_long_lines None None
              (λ flag, if String.eqb flag "-tlnp"
                       then Some ("State Recv-Q Send-Q Local Peer" +:+ nl
                                  +:+ "LISTEN 0 128 0.0.0.0:22 0.0.0.0:*")
                       else None)) as (_ & _ & _ & Hlinux).
  apply Hlinux. intros line Hline. vm_compute in Hline.
  apply elem_of_cons in Hline as [-> | Hline]; [by vm_compute|].
  by apply elem_of_nil in Hline.
Defined.

(** ** Rendering: the table and the JSON document *)

Section RenderMore.

Implicit Types (s : string) (e : entry).

Lemma spaces_length (n : nat) : String.length (spaces n) = n.
Proof. unfold spaces. induction n as [|n IH]; simpl; by f_equal. Qed.

Lemma ljust_length (w : nat) s :
  String.length (ljust w s) = (w `max` String.length s)%nat.
Proof. unfold ljust. rewrite length_append, spaces_length. lia. Qed.

Lemma rjust_length (w : nat) s :
  String.length (rjust w s) = (w `max` String.length s)%nat.
Proof. unfold rjust. rewrite length_append, spaces_length. lia. Qed.

Lemma pretty_N_go_length (k : nat) :
  ∀ (x : N) s, (x < 10 ^ N.of_nat k)%N →
               (String.length (pretty_N_go x s) ≤ String.length s + k)%nat.
Proof.
  induction k as [|k IH]; intros x s Hx.
  - assert (x = 0%N) as -> by (simpl in Hx; lia). rewrite pretty_N_go_0. lia.
  - destruct (decide (x = 0%N)) as [-> | Hne].
    { rewrite pretty_N_go_0. lia. }
    rewrite pretty_N_go_step by lia.
    etrans; [apply IH|simpl; lia].
    rewrite Nat2N.inj_succ, N.pow_succ_r' in Hx.
    apply N.Div0.div_lt_upper_bound. lia.
Qed.

(** A port below one million is written with at most six characters. *)
Lemma pretty_port_length (p : Z) :
  0 ≤ p < 1000000 → (String.length (pretty p) ≤ 6)%nat.
Proof.
  intros Hp. destruct p as [|q|q]; [simpl; lia| |lia].
  change (pretty (Z.pos q)) with (pretty (N.pos q)).
  unfold pretty, pretty_N. rewrite decide_False by done.
  apply (pretty_N_go_length 6 (N.pos q) EmptyString). simpl. lia.
Qed.

End RenderMore.

(** X16.  A row of the table is the three padded cells followed by the
    process name: the cells are never truncated, and when protocol, port
    and pid fit their widths (6, 6 and 8) the process name starts at column
    25 - the column at which the header line has its title Process. *)
Theorem text_row_layout (e : entry) (es : list entry) :
  (∃ cells, text_row e = cells +:+ process e
            ∧ String.length cells
              = (6 `max` String.length (proto e)
                 + 6 `max` String.length (pretty (port e))
                 + 8 `max` String.length (pid e) + 5)%nat
            ∧ ((String.length (proto e) ≤ 6)%nat → 0 ≤ port e < 1000000 →
               (String.length (pid e) ≤ 8)%nat → String.length cells = 25%nat))
  ∧ ∃ cells rest, format_text es = cells +:+ "Process" +:+ nl +:+ rest
                  ∧ String.length cells = 25%nat.
Proof.
  split.
  - exists (ljust 6 (proto e) +:+ " " +:+ rjust 6 (pretty (port e)) +:+ "  "
            +:+ rjust 8 (pid e) +:+ "  ").
    split; [unfold text_row; by rewrite !append_assoc|].
    assert (Hlen : String.length
                     (ljust 6 (proto e) +:+ " " +:+ rjust 6 (pretty (port e))
                      +:+ "  " +:+ rjust 8 (pid e) +:+ "  ")
                   = (6 `max` String.length (proto e)
                      + 6 `max` String.length (pretty (port e))
                      + 8 `max` String.length (pid e) + 5)%nat).
    { rewrite !length_append, ljust_length, !rjust_length. simpl. lia. }
    split; [exact Hlen|]. intros H1 H2 H3. rewrite Hlen.
    apply pretty_port_length in H2. lia.
  - exists "Proto    Port       PID  ".
    exists (String.concat nl
              (string_of_list_ascii (replicate 50 "-"%char)
               :: (map text_row es
                   ++ if decide (es = []) then ["(no listening ports found)"]
                      else []))).
    split; [|reflexivity].
    unfold format_text. destruct (decide (es = [])) as [-> | Hne]; [reflexivity|].
    rewrite app_nil_r. reflexivity.
Qed.

Lemma text_row_layout_witness :
  ∃ cells, text_row web = cells +:+ process web ∧ String.length cells = 25%nat.
Proof.
  destruct (text_row_layout web []) as [(cells & Hrow & _ & Hfit) _].
  exists cells. split; [exact Hrow|].
  apply Hfit.
  - vm_compute. lia.
  - simpl. lia.
  - vm_compute. lia.
Defined.

Section JsonMore.

Implicit Types (s r : string) (e : entry) (es : list entry).

Lemma format_json_eq es : format_json es = json_document es.
Proof.
  unfold format_json, json_document.
  change (encode 2 0 (JDict [("ports", JList (map entry_json es))]))
    with ("{" +:+ newline_indent 2 1
          +:+ String.concat ("," +:+ newline_indent 2 1)
                [encode_str "ports" +:+ ": "
                 +:+ encode 2 1 (JList (map entry_json es))]
          +:+ newline_indent 2 0 +:+ "}").
  rewrite encode_ports. unfold json_key, encode_str. cbn [String.concat].
  rewrite !append_assoc. reflexivity.
Qed.

Lemma all_chars_app p s r :
  all_chars p (s +:+ r) = all_chars p s && all_chars p r.
Proof.
  induction s as [|c s IH]; [done|].
  change (p c && all_chars p (s +:+ r) = p c && all_chars p s && all_chars p r).
  by rewrite IH, andb_assoc.
Qed.

Lemma all_chars_concat p sep (l : list string) :
  all_chars p sep = true → Forall (λ x, all_chars p x = true) l →
  all_chars p (String.concat sep l) = true.
Proof.
  intros Hsep. induction 1 as [|x l Hx Hl IH]; [done|].
  destruct l as [|y l]; [done|].
  change (all_chars p (x +:+ sep +:+ String.concat sep (y :: l)) = true).
  by rewrite !all_chars_app, Hx, Hsep, IH.
Qed.

Lemma escape_char_plain (c : ascii) : all_chars is_plain (escape_char c) = true.
Proof. destruct c as [[] [] [] [] [] [] [] []]; reflexivity. Qed.

Lemma escape_plain s : all_chars is_plain (escape s) = true.
Proof.
  induction s as [|c s IH]; [done|].
  change (all_chars is_plain (escape_char c +:+ escape s) = true).
  by rewrite all_chars_app, escape_char_plain, IH.
Qed.

Lemma encode_str_plain s : all_chars is_plain (encode_str s) = true.
Proof. unfold encode_str. by rewrite !all_chars_app, escape_plain. Qed.

Lemma pretty_N_go_chars (p : ascii → bool) (x : N) :
  (∀ d, p (pretty_N_char d) = true) →
  ∀ s, all_chars p s = true → all_chars p (pretty_N_go x s) = true.
Proof.
  intros Hp. induction (N.lt_wf_0 x) as [x _ IH]; intros s Hs.
  destruct (decide (x = 0%N)) as [-> | Hne]; [by rewrite pretty_N_go_0|].
  rewrite pretty_N_go_step by lia.
  apply IH; [apply N.div_lt; lia|]. simpl. by rewrite Hp, Hs.
Qed.

Lemma pretty_N_chars (p : ascii → bool) (x : N) :
  (∀ d, p (pretty_N_char d) = true) → all_chars p (pretty x) = true.
Proof.
  intros Hp. unfold pretty, pretty_N. case_decide.
  - simpl. rewrite andb_true_r. apply (Hp 0%N).
  - by apply pretty_N_go_chars.
Qed.

Lemma pretty_Z_chars (p : ascii → bool) (z : Z) :
  (∀ d, p (pretty_N_char d) = true) → p "-"%char = true →
  all_chars p (pretty z) = true.
Proof.
  intros Hp Hm. destruct z as [|q|q].
  - simpl. rewrite andb_true_r. apply (Hp 0%N).
  - change (pretty (Z.pos q)) with (pretty (N.pos q)). by apply pretty_N_chars.
  - change (pretty (Z.neg q)) with ("-" +:+ pretty (N.pos q)).
    rewrite all_chars_app. simpl. rewrite Hm. simpl. by apply pretty_N_chars.
Qed.

Lemma pretty_N_char_plain (d : N) : is_plain (pretty_N_char d) = true.
Proof. unfold pretty_N_char. by repeat case_match. Qed.

Lemma json_entry_plain e : all_chars is_plain (json_entry e) = true.
Proof.
  unfold json_entry, json_key.
  rewrite !all_chars_app, !encode_str_plain.
  rewrite (pretty_Z_chars is_plain) by (done || apply pretty_N_char_plain).
  reflexivity.
Qed.

End JsonMore.

(** X17.  The structured output is plain ASCII: every character of what
    [format_json] returns is a printable ASCII character or a line feed,
    whatever the process names and pids hold - control characters and
    characters beyond ASCII are written as escape sequences. *)
Theorem format_json_ascii (entries : list entry) :
  all_chars is_plain (format_json entries) = true.
Proof.
  rewrite format_json_eq. unfold json_document, json_key.
  rewrite !all_chars_app.
  assert (all_chars is_plain (json_ports entries) = true) as ->; [|reflexivity].
  unfold json_ports. destruct entries as [|e es]; [done|].
  rewrite !all_chars_app.
  rewrite all_chars_concat; [reflexivity | reflexivity |].
  apply Forall_fmap, Forall_forall. intros x _. apply json_entry_plain.
Qed.

Section JsonInjective.

Implicit Types (s r a b x y : string) (e : entry) (es : list entry).

Lemma decode1_escape (c : ascii) r : decode1 (escape_char c +:+ r) = Some (c, r).
Proof. destruct c as [[] [] [] [] [] [] [] []]; reflexivity. Qed.

Lemma decode1_quote r : decode1 (quote +:+ r) = None.
Proof. reflexivity. Qed.

(** The body of a JSON string determines the string it was made from,
    and where it ends. *)
Lemma escape_cancel a1 :
  ∀ a2 x1 x2, escape a1 +:+ quote +:+ x1 = escape a2 +:+ quote +:+ x2 →
              a1 = a2 ∧ x1 = x2.
Proof.
  induction a1 as [|c1 a1 IH]; intros [|c2 a2] x1 x2 H.
  - split; [done|]. by apply (inj (String.append quote)) in H.
  - change (escape (String c2 a2)) with (escape_char c2 +:+ escape a2) in H.
    rewrite append_assoc in H. apply (f_equal decode1) in H.
    change (escape EmptyString +:+ quote +:+ x1) with (quote +:+ x1) in H.
    by rewrite decode1_quote, decode1_escape in H.
  - change (escape (String c1 a1)) with (escape_char c1 +:+ escape a1) in H.
    rewrite append_assoc in H. apply (f_equal decode1) in H.
    change (escape EmptyString +:+ quote +:+ x2) with (quote +:+ x2) in H.
    by rewrite decode1_quote, decode1_escape in H.
  - change (escape (String c1 a1)) with (escape_char c1 +:+ escape a1) in H.
    change (escape (String c2 a2)) with (escape_char c2 +:+ escape a2) in H.
    rewrite !append_assoc in H. apply (f_equal decode1) in H.
    rewrite !decode1_escape in H. injection H as -> H.
    apply IH in H as [-> ->]. done.
Qed.

Lemma encode_str_cancel a1 a2 x1 x2 :
  encode_str a1 +:+ x1 = encode_str a2 +:+ x2 → a1 = a2 ∧ x1 = x2.
Proof.
  unfold encode_str. rewrite !append_assoc. intros H.
  apply (inj (String.append quote)) in H. by apply escape_cancel.
Qed.

Lemma comma_cancel a1 :
  ∀ a2 y1 y2,
    all_chars (λ c, negb (Ascii.eqb c ",")) a1 = true →
    all_chars (λ c, negb (Ascii.eqb c ",")) a2 = true →
    a1 +:+ "," +:+ y1 = a2 +:+ "," +:+ y2 → a1 = a2 ∧ y1 = y2.
Proof.
  induction a1 as [|c1 a1 IH]; intros [|c2 a2] y1 y2 H1 H2 H.
  - split; [done|]. by apply (inj (String.append ",")) in H.
  - injection H as <- _. by simpl in H2.
  - injection H as -> _. by simpl in H1.
  - injection H as -> H. simpl in H1, H2.
    apply andb_prop in H1 as [_ H1]. apply andb_prop in H2 as [_ H2].
    destruct (IH _ _ _ H1 H2 H) as [-> ->]. done.
Qed.

Lemma pretty_cancel (p1 p2 : Z) y1 y2 :
  pretty p1 +:+ "," +:+ y1 = pretty p2 +:+ "," +:+ y2 → p1 = p2 ∧ y1 = y2.
Proof.
  intros H.
  assert (Hc : ∀ z : Z, all_chars (λ c, negb (Ascii.eqb c ",")) (pretty z) = true).
  { intros z. apply pretty_Z_chars; [|done].
    intros d. unfold pretty_N_char. by repeat case_match. }
  destruct (comma_cancel _ _ _ _ (Hc p1) (Hc p2) H) as [Hp ->].
  split; [|done]. by apply (inj pretty).
Qed.

Ltac strip_literals H :=
  repeat match type of H with
         | String.append ?a _ = String.append ?a _ =>
             apply (inj (String.append a)) in H
         end.

(** An entry of the document determines the entry it renders, and where
    it ends. *)
Lemma json_entry_cancel e1 e2 r1 r2 :
  json_entry e1 +:+ r1 = json_entry e2 +:+ r2 → e1 = e2 ∧ r1 = r2.
Proof.
  unfold json_entry, json_key. rewrite !append_assoc. intros H.
  strip_literals H. apply encode_str_cancel in H as [Hproto H].
  strip_literals H. apply pretty_cancel in H as [Hport H].
  strip_literals H. apply encode_str_cancel in H as [Hpid H].
  strip_literals H. apply encode_str_cancel in H as [Hprocess H].
  strip_literals H.
  split; [|done]. destruct e1, e2; simpl in *; by subst.
Qed.

Lemma append_inv_r a :
  ∀ b t, a +:+ t = b +:+ t → a = b.
Proof.
  induction a as [|c a IH]; intros [|d b] t H; [done| | |].
  - apply (f_equal String.length) in H.
    change (String.length t = S (String.length (b +:+ t))) in H.
    rewrite length_append in H. lia.
  - apply (f_equal String.length) in H.
    change (S (String.length (a +:+ t)) = String.length t) in H.
    rewrite length_append in H. lia.
  - injection H as -> H. by rewrite (IH _ _ H).
Qed.

Lemma append_nil_r a : a +:+ EmptyString = a.
Proof.
  induction a as [|c a IH]; [done|].
  change (String c (a +:+ EmptyString) = String c a). by rewrite IH.
Qed.

Lemma concat_entries_cons (sep : string) e es :
  String.concat sep (json_entry <$> e :: es)
  = json_entry e +:+ match es with
                     | [] => EmptyString
                     | _ => sep +:+ String.concat sep (json_entry <$> es)
                     end.
Proof. destruct es; [by rewrite append_nil_r | done]. Qed.

Lemma concat_entries_inj es1 :
  ∀ es2, String.concat ("," +:+ nl +:+ "    ") (json_entry <$> es1)
         = String.concat ("," +:+ nl +:+ "    ") (json_entry <$> es2) →
         es1 = es2.
Proof.
  induction es1 as [|e1 es1 IH]; intros [|e2 es2] H; [done| | |].
  - rewrite concat_entries_cons in H. unfold json_entry in H. discriminate H.
  - rewrite concat_entries_cons in H. unfold json_entry in H. discriminate H.
  - rewrite !concat_entries_cons in H.
    apply json_entry_cancel in H as [-> H]. f_equal.
    destruct es1 as [|x1 es1], es2 as [|x2 es2]; [done| | |].
    + discriminate H.
    + discriminate H.
    + apply IH. by apply (inj (String.append _)) in H.
Qed.

Lemma json_ports_inj es1 es2 : json_ports es1 = json_ports es2 → es1 = es2.
Proof.
  unfold json_ports. destruct es1 as [|e1 es1], es2 as [|e2 es2]; [done| | |].
  - intros H. by injection H.
  - intros H. by injection H.
  - intros H. rewrite ?append_assoc in H.
    strip_literals H.
    apply append_inv_r in H. by apply concat_entries_inj.
Qed.

End JsonInjective.

(** X18.  The structured output loses nothing: two entry lists that
    [format_json] renders to the same text are the same list - same
    entries, same fields, same order. *)
Theorem format_json_injective (es1 es2 : list entry) :
  format_json es1 = format_json es2 → es1 = es2.
Proof.
  rewrite !format_json_eq. unfold json_document, json_key.
  rewrite !append_assoc. intros H.
  repeat match type of H with
         | String.append ?a _ = String.append ?a _ =>
             apply (inj (String.append a)) in H
         end.
  apply append_inv_r in H. by apply json_ports_inj.
Qed.

Lemma format_json_injective_witness : [web; dns_udp] = [web; dns_udp].
Proof. apply format_json_injective. reflexivity. Defined.

(** ** The whole program *)

Section MainMore.

Implicit Types (args : list string) (h : host) (o : options).

Lemma scan_macos_raise tcp udp ex : scan_macos tcp udp = Raise ex → ex = ValueError.
Proof.
  rewrite scan_macos_listings.
  intros (line & [[_ H] | [_ H]])%two_listings_raise;
    by destruct (line_raise _ line ex (or_introl H)).
Qed.

Lemma scan_linux_raise ss ex : scan_linux ss = Raise ex → ex = ValueError.
Proof.
  rewrite scan_linux_listings.
  intros (line & [[_ H] | [_ H]])%two_listings_raise;
    by destruct (line_raise _ line ex (or_intror H)).
Qed.

Lemma main_parsed args h o :
  parse_args args = ([], Ok o) →
  main args h
  = (entries ← scan_ports h;
     let entries := filter_ports entries o in
     if String.eqb (format o) "json" then print (format_json entries)
     else print (format_text entries)).
Proof.
  intros Hp. unfold main. rewrite Hp.
  exact (prog_bind_ok
           (λ opts, entries ← scan_ports h;
                    if String.eqb (format opts) "json"
                    then print (format_json (filter_ports entries opts))
                    else print (format_text (filter_ports entries opts))) o).
Qed.

Lemma main_rejected args h tr ex :
  parse_args args = (tr, Raise ex) → main args h = (tr, Raise ex).
Proof. intros Hp. unfold main. by rewrite Hp. Qed.

Lemma filter_ports_nil o : filter_ports [] o = [].
Proof.
  unfold filter_ports, range_filter.
  by destruct (range_start o), (range_end o).
Qed.

Lemma render_run (b : bool) (x y : string) :
  run (if b then print x else print y)
  = {| exit_status := 0; stdout := [if b then x else y]; stderr := [];
       traceback := None |}.
Proof. by destruct b. Qed.

End MainMore.

(** X19.  A run of the program ends in one of two ways: with status 0,
    exactly one text on standard output (the rendering, or the usage text)
    and nothing on the error stream; or with status 1, nothing on standard
    output and something on the error stream. *)
Theorem main_outcomes (args : list string) (h : host) :
  let r := run (main args h) in
  (exit_status r = 0 ∧ (∃ out, stdout r = [out]) ∧ stderr r = []
   ∧ traceback r = None)
  ∨ (exit_status r = 1 ∧ stdout r = [] ∧ wrote_stderr r).
Proof.
  intros r. subst r.
  destruct (parse_loop_outcomes args default_opts) as [[o Hp] | [Hp | Herr]].
  - rewrite (main_parsed args h o Hp). unfold scan_ports.
    destruct (String.eqb (system h) "Darwin").
    { destruct (scan_macos (lsof_tcp h) (lsof_udp h)) as [entries|ex] eqn:Hs.
      - left. change (lift (Ok entries) ≫= ?f) with (prog_bind f (lift (Ok entries))).
        rewrite prog_bind_ok, render_run. simpl. eauto.
      - apply scan_macos_raise in Hs as ->. right.
        repeat split. right. done. }
    destruct (String.eqb (system h) "Linux").
    { destruct (scan_linux (ss h)) as [entries|ex] eqn:Hs.
      - left. change (lift (Ok entries) ≫= ?f) with (prog_bind f (lift (Ok entries))).
        rewrite prog_bind_ok, render_run. simpl. eauto.
      - apply scan_linux_raise in Hs as ->. right.
        repeat split. right. done. }
    right. repeat split. left. done.
  - rewrite (main_rejected args h _ _ Hp). left. simpl. eauto.
  - right. destruct (usage_error_run (main args h)) as (? & ? & ?); [|done].
    by apply usage_error_bind.
Qed.

(** X20.  On a platform other than Darwin and Linux, arguments that parse
    without error lead to exit status 1, the message naming the platform on
    the error stream, and nothing on standard output; no listing is read. *)
Theorem unsupported_platform (args : list string) (h : host) (o : options) :
  parse_args args = ([], Ok o) →
  system h ≠ "Darwin" → system h ≠ "Linux" →
  run (main args h)
  = {| exit_status := 1; stdout := [];
       stderr := ["Unsupported platform: " +:+ system h]; traceback := None |}.
Proof.
  intros Hp Hd Hl. rewrite (main_parsed args h o Hp). unfold scan_ports.
  apply String.eqb_neq in Hd, Hl. by rewrite Hd, Hl.
Qed.

Lemma unsupported_platform_witness :
  run (main ["--format"; "json"]
         {| system := "Windows"; lsof_tcp := None; lsof_udp := None;
            ss := λ _, None |})
  = {| exit_status := 1; stdout := [];
       stderr := ["Unsupported platform: Windows"]; traceback := None |}.
Proof.
  apply (unsupported_platform ["--format"; "json"]
           {| system := "Windows"; lsof_tcp := None; lsof_udp := None;
              ss := λ _, None |} (set_format default_opts "json"));
    [reflexivity | discriminate | discriminate].
Defined.

(** X21.  When the arguments are rejected, or ask for help, the program
    stops before it looks at the host: what it prints and its exit status
    are those of the parse, the same on every host. *)
Theorem rejected_before_scan (args : list string) (tr : list event) (ex : exn)
    (h : host) :
  parse_args args = (tr, Raise ex) →
  main args h = (tr, Raise ex) ∧ run (main args h) = run (parse_args args).
Proof.
  intros Hp. rewrite (main_rejected args h tr ex Hp). by rewrite Hp.
Qed.

Lemma rejected_before_scan_witness :
  run (main ["--format"; "yaml"] linux_host) = run (parse_args ["--format"; "yaml"]).
Proof.
  destruct (rejected_before_scan ["--format"; "yaml"]
              [Stderr "Error: --format must be text or json"] (SystemExit 1)
              linux_host) as [_ H]; [reflexivity | exact H].
Defined.

(** X22.  A listing that cannot be obtained is not an error: on Darwin
    or Linux, when neither listing is there (the utility is missing or
    timed out), arguments that parse without error lead to exit status 0
    and the rendering of the empty entry list in the chosen format. *)
Theorem missing_listings_succeed (args : list string) (h : host) (o : options) :
  parse_args args = ([], Ok o) →
  (system h = "Darwin" ∧ lsof_tcp h = None ∧ lsof_udp h = None)
  ∨ (system h = "Linux" ∧ ss h "-tlnp" = None ∧ ss h "-ulnp" = None) →
  run (main args h)
  = {| exit_status := 0;
       stdout := [if String.eqb (format o) "json" then format_json []
                  else format_text []];
       stderr := []; traceback := None |}.
Proof.
  intros Hp Hhost. rewrite (main_parsed args h o Hp). unfold scan_ports.
  assert (Hscan : (if String.eqb (system h) "Darwin"
                   then lift (scan_macos (lsof_tcp h) (lsof_udp h))
                   else if String.eqb (system h) "Linux"
                        then lift (scan_linux (ss h))
                        else _ ← eprint ("Unsupported platform: " +:+ system h);
                             sys_exit 1)
                  = lift (Ok [])).
  { destruct Hhost as [(Hs & H1 & H2) | (Hs & H1 & H2)]; rewrite Hs; simpl.
    - by rewrite H1, H2.
    - by rewrite scan_linux_listings, two_listings_eq, H1, H2. }
  rewrite Hscan.
  change (lift (Ok []) ≫= ?f) with (prog_bind f (lift (Ok (@nil entry)))).
  rewrite prog_bind_ok, filter_ports_nil. apply render_run.
Qed.

Lemma missing_listings_succeed_witness :
  run (main ["--format"; "json"] linux_host)
  = {| exit_status := 0; stdout := [format_json []]; stderr := [];
       traceback := None |}.
Proof.
  apply (missing_listings_succeed ["--format"; "json"] linux_host
           (set_format default_opts "json")); [reflexivity|].
  right. by repeat split.
Defined.

(** ** Options and filter together *)

Section OptionsMore.

Implicit Types (argv pre : list string) (o : options).

Lemma parse_loop_keeps argv :
  ∀ o tr o', parse_loop argv o = (tr, Ok o') →
    ("--range" ∉ argv → "--common" ∉ argv →
     range_start o' = range_start o ∧ range_end o' = range_end o)
    ∧ ("--format" ∉ argv → format o' = format o).
Proof.
  remember (length argv) as n eqn:Hn. revert argv Hn.
  induction n as [n IH] using lt_wf_ind. intros argv -> o tr o' Hp.
  destruct argv as [|arg rest].
  { change (([], Ok o) = (tr, Ok o')) in Hp. by simplify_eq. }
  destruct (parse_loop_cases arg rest o)
    as [(rest' & o1 & Hstep) | [[-> Hh] | [_ (tr' & e & Herr & _)]]];
    [|congruence..].
  rewrite (parse_loop_step _ _ _ _ Hstep) in Hp.
  destruct (IH _ (flag_step_length _ _ _ _ Hstep) _ eq_refl _ _ _ Hp) as [Hr Hf].
  inversion Hstep as [r | v lo hi r Hv | v r Hv]; subst.
  - split.
    + intros _ Hc. destruct Hc. apply list_elem_of_here.
    + intros Hn. apply Hf. intros Hin. by apply Hn, list_elem_of_further.
  - split.
    + intros Hc _. destruct Hc. apply list_elem_of_here.
    + intros Hn. apply Hf. intros Hin. by apply Hn, list_elem_of_further, list_elem_of_further.
  - split.
    + intros H1 H2. apply Hr; intros Hin;
        [apply H1 | apply H2]; by apply list_elem_of_further, list_elem_of_further.
    + intros Hn. destruct Hn. apply list_elem_of_here.
Qed.

Lemma filter_ports_in_range es o lo hi e :
  range_start o = Some lo → range_end o = Some hi →
  e ∈ filter_ports es o → lo ≤ port e ≤ hi.
Proof.
  intros Hlo Hhi He. apply filter_ports_elem, dedupe_elem in He as [He _].
  unfold range_filter in He. rewrite Hlo, Hhi in He.
  by apply list_elem_of_filter in He as [? _].
Qed.

End OptionsMore.

(** X23.  Parsing and filtering together.  After arguments that parse
    without error, a final [--common] stores the bounds 1 and 1024 and a
    final [--range v], where [v] has two parts that [int()] reads as [lo]
    and [hi], stores [lo] and [hi].  With the options so parsed,
    [filter_ports] returns only input entries whose port lies within the
    bounds, and each input entry within the bounds is represented in the
    result by an entry with its protocol, port and pid. *)
Theorem last_range_flag_filters (pre : list string) (o : options) :
  parse_args pre = ([], Ok o) →
  (∃ o', parse_args (pre ++ ["--common"]) = ([], Ok o')
         ∧ range_start o' = Some 1 ∧ range_end o' = Some 1024
         ∧ format o' = format o
         ∧ ∀ es e,
             (e ∈ filter_ports es o' → e ∈ es ∧ 1 ≤ port e ≤ 1024)
             ∧ (e ∈ es → 1 ≤ port e ≤ 1024 →
                ∃ e', e' ∈ filter_ports es o' ∧ proto e' = proto e
                      ∧ port e' = port e ∧ pid e' = pid e))
  ∧ (∀ v lo hi, range_value v = Some (lo, hi) →
       ∃ o', parse_args (pre ++ ["--range"; v]) = ([], Ok o')
             ∧ range_start o' = Some lo ∧ range_end o' = Some hi
             ∧ format o' = format o
             ∧ ∀ es e,
                 (e ∈ filter_ports es o' → e ∈ es ∧ lo ≤ port e ≤ hi)
                 ∧ (e ∈ es → lo ≤ port e ≤ hi →
                    ∃ e', e' ∈ filter_ports es o' ∧ proto e' = proto e
                          ∧ port e' = port e ∧ pid e' = pid e)).
Proof.
  intros Hpre.
  assert (Hfilter : ∀ lo hi es e,
            let o' := {| format := format o;
                         range_start := Some lo; range_end := Some hi |} in
            (e ∈ filter_ports es o' → e ∈ es ∧ lo ≤ port e ≤ hi)
            ∧ (e ∈ es → lo ≤ port e ≤ hi →
               ∃ e', e' ∈ filter_ports es o' ∧ proto e' = proto e
                     ∧ port e' = port e ∧ pid e' = pid e)).
  { intros lo hi es e o'. split.
    - intros He. split; [|by apply (filter_ports_in_range es o' lo hi)].
      by eapply elem_of_submseteq; [|apply filter_ports_submseteq].
    - intros He Hr.
      destruct (dedupe_complete ∅ (range_filter es o') e) as (e' & He' & Hk).
      + apply range_filter_pass; [done|]. intros lo' hi' [= <-] [= <-]. done.
      + apply not_elem_of_empty.
      + exists e'. split; [by apply filter_ports_elem|].
        unfold key in Hk. by simplify_eq. }
  unfold parse_args in *. split.
  - exists (set_range o 1 1024). split.
    + by destruct (parse_loop_app pre _ _ _ ["--common"] Hpre) as [_ ->].
    + do 3 (split; [done|]). apply Hfilter.
  - intros v lo hi Hv. exists (set_range o lo hi). split.
    + destruct (parse_loop_app pre _ _ _ ["--range"; v] Hpre) as [_ ->].
      by rewrite (parse_loop_range_ok v lo hi).
    + do 3 (split; [done|]). apply Hfilter.
Qed.

Lemma last_range_flag_filters_witness :
  ∃ o', parse_args (["--format"; "json"] ++ ["--range"; "3000-9000"]) = ([], Ok o')
        ∧ range_start o' = Some 3000 ∧ range_end o' = Some 9000
        ∧ format o' = "json".
Proof.
  destruct (last_range_flag_filters ["--format"; "json"]
              {| format := "json"; range_start := None; range_end := None |})
    as [_ H]; [reflexivity|].
  destruct (H "3000-9000" 3000 9000 eq_refl) as (o' & Hp & Hlo & Hhi & Hf & _).
  exists o'. by repeat split.
Defined.

(** X24.  Defaults: when the arguments parse without error and hold
    neither [--range] nor [--common], no bound is set and the range step of
    [filter_ports] keeps every entry; when they hold no [--format], the
    output format is text. *)
Theorem defaults_without_flags (args : list string) (tr : list event)
    (o : options) :
  parse_args args = (tr, Ok o) →
  ("--range" ∉ args → "--common" ∉ args →
   range_start o = None ∧ range_end o = None ∧ ∀ es, range_filter es o = es)
  ∧ ("--format" ∉ args → format o = "text").
Proof.
  intros Hp. destruct (parse_loop_keeps args _ _ _ Hp) as [Hr Hf]. split.
  - intros H1 H2. destruct (Hr H1 H2) as [Hs He]. simpl in Hs, He.
    split; [done|]. split; [done|]. intros es. unfold range_filter. by rewrite Hs.
  - intros H. by apply Hf.
Qed.

Lemma defaults_without_flags_witness :
  format {| format := "text"; range_start := Some 1; range_end := Some 1024 |}
  = "text".
Proof.
  destruct (defaults_without_flags ["--common"] []
              {| format := "text"; range_start := Some 1; range_end := Some 1024 |})
    as [_ H]; [reflexivity|].
  apply H. intros Hin. apply list_elem_of_singleton in Hin. discriminate Hin.
Defined.
